(** * RedCLAP parser ([clap/parser.py]): a shallow embedding and its properties

    The development follows [src/clap/parser.py].  The parser talks to three
    collaborators whose code is not part of the sources at hand: the token
    classifier [shared.lookslikeopt], the mode objects (queried through
    [accepts], [params], [alias], [getopt], [options(group='global')],
    [modes], [getmode], [hasmode] and the attribute [_modes]) and the option
    objects (queried through [match], [params], [isplural] and
    [['plural']]).  The classifier is a parameter of every definition; modes
    and options are records of their query functions, so that any
    implementation of these interfaces can be plugged in. *)

From Stdlib Require Import String List ZArith Bool Arith Lia Ascii.
Import ListNotations.

Local Open Scope string_scope.
Local Open Scope list_scope.

Set Warnings "-register-all".

(** ** Python values and exceptions *)

(** The values that end up in an options map: [None], an [int], a [str], a
    [tuple], a [list], or some other object produced by a type handler
    (a float, an instance of a custom class), kept by its printed form. *)
Inductive Val : Type :=
| VNone
| VInt (z : Z)
| VStr (s : string)
| VTuple (l : list Val)
| VList (l : list Val)
| VObj (repr : string).

(** Exceptions that can leave the parser.  [OptionNotFound] is what the mode's
    [getopt] raises for a name no declared option matches; [HandlerError] is
    whatever a type handler raises on a raw value it rejects. *)
Inductive exn : Type :=
| KeyError (key : string)
| IndexError
| TypeError
| AttributeError
| OptionNotFound (name : string)
| HandlerError (msg : string).

(** Outcome of running a piece of the program: it returns, it raises, or the
    step budget given to the model ran out before it finished. *)
Inductive outcome (A : Type) : Type :=
| Ret (a : A)
| Raise (e : exn)
| OutOfFuel.

Arguments Ret {A} a.
Arguments Raise {A} e.
Arguments OutOfFuel {A}.

Definition bind {A B : Type} (x : outcome A) (k : A -> outcome B) : outcome B :=
  match x with
  | Ret a => k a
  | Raise e => Raise e
  | OutOfFuel => OutOfFuel
  end.

Notation "x <- c ;; k" := (bind c (fun x => k))
  (at level 61, c at next level, right associativity).

Definition null {A : Type} (l : list A) : bool :=
  match l with [] => true | _ :: _ => false end.

(** Iterating over a [str] yields its one-character strings. *)
Definition chars (s : string) : list Val :=
  map (fun c => VStr (String c EmptyString)) (list_ascii_of_string s).

(** [a += b] *)
Definition py_iadd (a b : Val) : outcome Val :=
  match a, b with
  | VInt x, VInt y => Ret (VInt (x + y))
  | VStr x, VStr y => Ret (VStr (x ++ y))
  | VTuple x, VTuple y => Ret (VTuple (x ++ y))
  | VList x, VList y => Ret (VList (x ++ y))
  | VList x, VTuple y => Ret (VList (x ++ y))
  | VList x, VStr s => Ret (VList (x ++ chars s))
  | _, _ => Raise TypeError
  end.

(** [a.append(x)] *)
Definition py_append (a x : Val) : outcome Val :=
  match a with
  | VList l => Ret (VList (l ++ [x]))
  | _ => Raise AttributeError
  end.

(** [tuple(v)] *)
Definition py_tuple (v : Val) : outcome Val :=
  match v with
  | VTuple l => Ret (VTuple l)
  | VList l => Ret (VTuple l)
  | VStr s => Ret (VTuple (chars s))
  | _ => Raise TypeError
  end.

(** The items of [for x in v]. *)
Definition py_iter (v : Val) : outcome (list Val) :=
  match v with
  | VTuple l => Ret l
  | VList l => Ret l
  | VStr s => Ret (chars s)
  | _ => Raise TypeError
  end.

(** [v[0]] *)
Definition py_getitem0 (v : Val) : outcome Val :=
  match v with
  | VTuple (x :: _) => Ret x
  | VList (x :: _) => Ret x
  | VTuple [] => Raise IndexError
  | VList [] => Raise IndexError
  | VStr s => match chars s with x :: _ => Ret x | [] => Raise IndexError end
  | _ => Raise TypeError
  end.

Fixpoint mapM {A B : Type} (f : A -> outcome B) (l : list A) : outcome (list B) :=
  match l with
  | [] => Ret []
  | x :: r => y <- f x ;; ys <- mapM f r ;; Ret (y :: ys)
  end.

(** ** Python dictionaries with [str] keys

    Kept in insertion order, as Python keeps them: the order decides which
    exception is met first when a loop over the items can fail. *)
Definition dict (V : Type) : Type := list (string * V).

Fixpoint dict_get {V : Type} (d : dict V) (k : string) : option V :=
  match d with
  | [] => None
  | (k', v) :: r => if k' =? k then Some v else dict_get r k
  end.

(** [k in d] *)
Definition dict_mem {V : Type} (k : string) (d : dict V) : bool :=
  match dict_get d k with Some _ => true | None => false end.

(** [d[k] = v]: an existing key keeps its place, a new one goes last. *)
Fixpoint dict_set {V : Type} (d : dict V) (k : string) (v : V) : dict V :=
  match d with
  | [] => [(k, v)]
  | (k', v') :: r => if k' =? k then (k, v) :: r else (k', v') :: dict_set r k v
  end.

Definition keys {V : Type} (d : dict V) : list string := map fst d.

(** No key occurs twice: true of every Python dictionary. *)
Fixpoint nodup_keys {V : Type} (d : dict V) : bool :=
  match d with
  | [] => true
  | (k, _) :: r => negb (dict_mem k r) && nodup_keys r
  end.

(** [d[k]], raising [KeyError] for a missing key. *)
Definition dict_item {V : Type} (d : dict V) (k : string) : outcome V :=
  match dict_get d k with
  | Some v => Ret v
  | None => Raise (KeyError k)
  end.

(** ** Type handlers, options and modes *)

(** A type handler turns one raw token into a value or raises. *)
Definition handler : Type := string -> Val + exn.

Definition call (h : handler) (raw : string) : outcome Val :=
  match h raw with
  | inl v => Ret v
  | inr e => Raise e
  end.

(** One declared parameter of an option: the name of a registered type
    handler ([type(callback) is str]) or the callable itself. *)
Inductive Param : Type :=
| PName (name : string)
| PCall (h : handler).

(** Modelled from the spec: the option class is not in the sources at
    hand.  The record holds the answers to the queries [parser.py] makes to
    an option; [o.isplural()] and [o['plural']] both read the one
    plurality flag of the descriptor. *)
Record Opt : Type := mkOpt {
  omatch : string -> bool;      (* o.match(s) *)
  oparams : list Param;         (* o.params() *)
  isplural : bool               (* o.isplural(), o['plural'] *)
}.

(** Modelled from the spec: the mode class is not in the sources at hand.
    The record holds the answers to the queries [parser.py] makes to a
    mode, so that any implementation can stand behind it.  Looking up an
    option the mode never declared is a fatal option-not-found error:
    [getopt] answers [None] there, and the callers raise
    [OptionNotFound]. *)
Inductive Mode : Type := mkMode {
  accepts : string -> bool;           (* mode.accepts(s) *)
  params : string -> list Param;      (* mode.params(s) *)
  alias : string -> string;           (* mode.alias(s) *)
  getopt : string -> option Opt;      (* mode.getopt(s) *)
  options_global : list Opt;          (* mode.options(group='global') *)
  _modes : dict Mode                  (* mode._modes *)
}.

(** Modelled from the spec: [mode.modes()], [mode.hasmode(name)] and
    [mode.getmode(name)] are not in the sources at hand; the specification
    model exposes the names of the child modes, a test whether a token names
    a child mode, and the child mode of a given name.  They are read off the
    [_modes] dictionary that [Parser.parse] itself indexes. *)
Definition modes (m : Mode) : list string := keys (_modes m).

Definition hasmode (m : Mode) (name : string) : bool := dict_mem name (_modes m).

Definition getmode (m : Mode) (name : string) : outcome Mode := dict_item (_modes m) name.

(** ** [ParsedUI] *)

(** A result as [Parser.parse] hands it out, with [_mode] assigned.  The
    [_parent] link is left out: it only serves [up] and [top], and a child
    is always reached here through its parent. *)
Inductive ParsedUI : Type := mkUI {
  _options : dict Val;
  _operands : list string;
  _name : string;
  _mode : Mode;
  _child : option ParsedUI
}.

(** [ParsedUI.__contains__] *)
Definition __contains__ (ui : ParsedUI) (option : string) : outcome bool :=
  Ret (dict_mem option (_options ui)).

(** [ParsedUI.get] *)
Definition get (ui : ParsedUI) (key : string) (tuplise : bool) : outcome Val :=
  match getopt (_mode ui) key with
  | None => Raise (OptionNotFound key)
  | Some option =>
      value <- dict_item (_options ui) key ;;
      if isplural option && null (oparams option) then Ret value
      else if null (oparams option) then Ret VNone
      else if (length (oparams option) =? 1)%nat && negb (isplural option)
      then py_getitem0 value
      else if tuplise then
        (if isplural option
         then vs <- py_iter value ;; ts <- mapM py_tuple vs ;; Ret (VList ts)
         else py_tuple value)
      else Ret value
  end.

(** The first global option of the mode that matches [k]: the inner loop of
    [ParsedUI.finalise]. *)
Definition global_match (m : Mode) (k : string) : option Opt :=
  find (fun o => omatch o k) (options_global m).

(** One turn of the loop over [self._options.items()] in [finalise];
    [copts] is the child's options map.  Where [+=] extends a list in
    place, the list is the child's own entry, which no other map holds,
    so that writing the sum back describes it. *)
Definition finalise_item (m : Mode) (copts : dict Val) (kv : string * Val)
  : outcome (dict Val) :=
  let '(k, v) := kv in
  match global_match m k with
  | None => Ret copts
  | Some mt =>
      copts1 <-
        (if dict_mem k copts && isplural mt && null (oparams mt)
         then w <- dict_item copts k ;; w' <- py_iadd w v ;; Ret (dict_set copts k w')
         else Ret copts) ;;
      Ret (if negb (dict_mem k copts1) then dict_set copts1 k v else copts1)
  end.

Fixpoint finalise_items (m : Mode) (items : dict Val) (copts : dict Val)
  : outcome (dict Val) :=
  match items with
  | [] => Ret copts
  | kv :: r => copts' <- finalise_item m copts kv ;; finalise_items m r copts'
  end.

(** [finalise] on a node whose options map currently is [opts]: the parent
    has written into the child's map before it calls the child's
    [finalise], so the map travels as an argument. *)
Fixpoint finalise_from (ui : ParsedUI) (opts : dict Val) : outcome ParsedUI :=
  match _child ui with
  | None => Ret (mkUI opts (_operands ui) (_name ui) (_mode ui) None)
  | Some c =>
      copts <- finalise_items (_mode ui) opts (_options c) ;;
      c' <- finalise_from c copts ;;
      Ret (mkUI opts (_operands ui) (_name ui) (_mode ui) (Some c'))
  end.

(** [ParsedUI.finalise] *)
Definition finalise (ui : ParsedUI) : outcome ParsedUI :=
  finalise_from ui (_options ui).

(** ** [Parser] *)

(** [self._typehandlers]: type handlers by name. *)
Definition registry : Type := dict handler.

(** [if type(callback) is str: callback = self._typehandlers[callback]] *)
Definition resolve (th : registry) (p : Param) : outcome handler :=
  match p with
  | PName name => dict_item th name
  | PCall h => Ret h
  end.

(** The loop [for j, callback in enumerate(self._mode.params(item))] of
    [Parser.parse], from position [j] on: [raw] is [params[j:]].  The
    callback is looked up before [params[j]] is read. *)
Fixpoint coerce (th : registry) (callbacks : list Param) (raw : list string)
  : outcome (list Val) :=
  match callbacks with
  | [] => Ret (map VStr raw)
  | cb :: callbacks' =>
      h <- resolve th cb ;;
      match raw with
      | [] => Raise IndexError
      | r :: raw' =>
          v <- call h r ;;
          vs <- coerce th callbacks' raw' ;;
          Ret (v :: vs)
      end
  end.

(** An entry of the list [options] built by [Parser.parse]: the name and
    either [None] or the list of coerced parameters. *)
Definition occurrence : Type := (string * option (list Val))%type.

(** The object stored for [args]. *)
Definition args_val (args : option (list Val)) : Val :=
  match args with
  | Some l => VList l
  | None => VNone
  end.

(** One turn of the loop [for opt, args in options] of [Parser.parse]. *)
Definition store (m : Mode) (d : dict Val) (oc : occurrence) : outcome (dict Val) :=
  let '(opt, args) := oc in
  match getopt m opt with
  | None => Raise (OptionNotFound opt)
  | Some o =>
      if isplural o && negb (null (oparams o)) then
        let d1 := if negb (dict_mem opt d) then dict_set d opt (VList []) else d in
        w <- dict_item d1 opt ;;
        w' <- py_append w (args_val args) ;;
        Ret (dict_set d1 opt w')
      else if isplural o && null (oparams o) then
        let d1 := if negb (dict_mem opt d) then dict_set d opt (VInt 0) else d in
        w <- dict_item d1 opt ;;
        w' <- py_iadd w (VInt 1) ;;
        Ret (dict_set d1 opt w')
      else
        Ret (dict_set d opt (match args with Some l => VTuple l | None => VNone end))
  end.

Fixpoint store_all (m : Mode) (d : dict Val) (ocs : list occurrence)
  : outcome (dict Val) :=
  match ocs with
  | [] => Ret d
  | oc :: r => d' <- store m d oc ;; store_all m d' r
  end.

Section Parser.

(** [shared.lookslikeopt] *)
Variable lookslikeopt : string -> bool.

(** The handlers every new [Parser] starts with: [str], [int], [float] and
    the entries of [TYPEHANDLERS]. *)
Variable default_typehandlers : registry.

(** The [while] loop of [Parser._getinput]; the result is the final
    [index]. *)
Fixpoint getinput_loop (fuel : nat) (m : Mode) (args : list string)
  (i : nat) (index : Z) : outcome Z :=
  match fuel with
  | O => OutOfFuel
  | S fuel' =>
      if (i <? length args)%nat then
        let item := nth i args "" in
        let prev := nth (i - 1) args "" in
        if item =? "--" then Ret index
        else if (i =? 0)%nat && negb (lookslikeopt item) then Ret index
        else if (0 <? i)%nat && negb (lookslikeopt item) && negb (lookslikeopt prev)
        then Ret index
        else if (0 <? i)%nat && negb (lookslikeopt item) && lookslikeopt prev
                && null (params m prev)
        then Ret index
        else
          let i1 :=
            if (0 <? i)%nat && negb (lookslikeopt item) && lookslikeopt prev
               && negb (null (params m prev))
            then (i + (length (params m prev) - 1))%nat
            else i in
          getinput_loop fuel' m args (i1 + 1)%nat (Z.of_nat i1)
      else Ret index
  end.

(** [Parser._getinput] *)
Definition _getinput (m : Mode) (args : list string) : outcome (list string) :=
  index <- getinput_loop (S (length args)) m args 0%nat (-1)%Z ;;
  Ret (if (0 <=? index)%Z then firstn (Z.to_nat (index + 1)) args else []).

(** [Parser._isAcceptedInChildModes]: the loop over [self._mode.modes()];
    [getmode] does not fail on a name that [modes()] lists. *)
Definition _isAcceptedInChildModes (m : Mode) (option : string) : bool :=
  existsb (fun name =>
             match getmode m name with
             | Ret child => accepts child option
             | _ => false
             end)
          (modes m).

(** The [while] loop of [Parser._heuralgo]; the result is the pair
    [(operands, i)] the loop ends with.  [operands] holds the [i] tokens
    seen so far, so that [i - 1] is taken of a positive [i] whenever the
    pop succeeds. *)
Fixpoint heuralgo_loop (fuel : nat) (m : Mode) (opers : list string)
  (i : nat) (operands : list string) : outcome (list string * nat) :=
  match fuel with
  | O => OutOfFuel
  | S fuel' =>
      if (i <? length opers)%nat then
        let item := nth i opers "" in
        if hasmode m item then Ret (operands, i)
        else if lookslikeopt item && _isAcceptedInChildModes m item then
          match operands with
          | [] => Raise IndexError                       (* operands.pop(-1) *)
          | _ :: _ => Ret (removelast operands, (i - 1)%nat)
          end
        else heuralgo_loop fuel' m opers (i + 1)%nat (operands ++ [item])
      else Ret (operands, i)
  end.

(** [Parser._heuralgo] *)
Definition _heuralgo (m : Mode) (opers : list string)
  : outcome (list string * list string) :=
  r <- heuralgo_loop (S (length opers)) m opers 0%nat [] ;;
  let '(operands, i) := r in
  Ret (operands, skipn i opers).

(** [Parser._getheuroperands] *)
Definition _getheuroperands (m : Mode) (args : list string)
  : outcome (list string * list string) :=
  input <- _getinput m args ;;
  let n := length input in
  let operands := skipn n args in
  let breaker := match operands with o :: _ => o =? "--" | [] => false end in
  let operands := if breaker then tl operands else operands in
  if negb breaker then _heuralgo m operands
  else Ret (operands, []).

(** The first [while] loop of [Parser.parse]; the result is the list
    [options]. *)
Fixpoint parse_loop (fuel : nat) (th : registry) (m : Mode) (input : list string)
  (i : nat) (options : list occurrence) : outcome (list occurrence) :=
  match fuel with
  | O => OutOfFuel
  | S fuel' =>
      if (i <? length input)%nat then
        let item := nth i input "" in
        if lookslikeopt item && accepts m item && null (params m item) then
          let options := options ++ [(item, None)] in
          let a := alias m item in
          let options := if negb (a =? item) then options ++ [(a, None)] else options in
          parse_loop fuel' th m input (i + 1)%nat options
        else if lookslikeopt item && accepts m item && negb (null (params m item)) then
          let n := length (params m item) in
          let raw := firstn n (skipn (i + 1) input) in
          ps <- coerce th (params m item) raw ;;
          let options := options ++ [(item, Some ps)] in
          let a := alias m item in
          let options := if negb (a =? item) then options ++ [(a, Some ps)] else options in
          parse_loop fuel' th m input (i + n + 1)%nat options
        else Ret options
      else Ret options
  end.

(** [Parser(mode).feed(args).parse().ui()] for a parser whose handlers are
    [th]; [depth] bounds the nesting of the calls [Parser(mode)...parse()]
    made for child modes.  A nested parser is a new [Parser] and starts
    from the default handlers.  The name and mode of a nested result are
    the ones [parse] assigns after the nested call. *)
Fixpoint parse_named (depth : nat) (th : registry) (name : string) (m : Mode)
  (args : list string) : outcome ParsedUI :=
  input <- _getinput m args ;;
  options <- parse_loop (S (length input)) th m input 0%nat [] ;;
  parsed_options <- store_all m [] options ;;
  r <- _getheuroperands m args ;;
  let '(operands, nested) := r in
  match nested with
  | [] => Ret (mkUI parsed_options operands name m None)
  | name' :: nested' =>
      mode <- dict_item (_modes m) name' ;;
      match depth with
      | O => OutOfFuel
      | S depth' =>
          ui <- parse_named depth' default_typehandlers name' mode nested' ;;
          Ret (mkUI parsed_options operands name m (Some ui))
      end
  end.

(** [Parser.parse] followed by [ui()], on a new parser fed with [args]:
    as many nested calls as there are tokens are allowed. *)
Definition parse (th : registry) (m : Mode) (args : list string) : outcome ParsedUI :=
  parse_named (length args) th "" m args.

End Parser.

(** ** Vocabulary of the statements *)

(** [z] is a zero-arity option of the mode: it looks like an option, is not
    the separator, is accepted by the mode and takes no parameter. *)
Definition is_flag (lookslikeopt : string -> bool) (m : Mode) (z : string) : bool :=
  lookslikeopt z && negb (z =? "--") && accepts m z && null (params m z).

(** What the option scan records for a run of flags. *)
Definition flag_occurrences (m : Mode) (zs : list string) : list occurrence :=
  flat_map (fun z => (z, None) ::
                     (if negb (alias m z =? z) then [(alias m z, None)] else []))
           zs.

(** How many nested results hang below a result. *)
Fixpoint nesting (ui : ParsedUI) : nat :=
  match _child ui with
  | None => 0
  | Some c => S (nesting c)
  end.

(** The run came to an end within the budget of the model. *)
Definition finishes {A : Type} (x : outcome A) : Prop := x <> OutOfFuel.

(** The arguments recorded under the name [k], in the order of the input. *)
Definition named (k : string) (ocs : list occurrence) : list (option (list Val)) :=
  map snd (filter (fun oc => fst oc =? k) ocs).

(** What one turn of the storing loop leaves under the name of an option
    [o], given what was there before. *)
Definition key_step (o : Opt) (cur : option Val) (args : option (list Val))
  : outcome Val :=
  if isplural o && negb (null (oparams o)) then
    py_append (match cur with Some w => w | None => VList [] end) (args_val args)
  else if isplural o && null (oparams o) then
    py_iadd (match cur with Some w => w | None => VInt 0 end) (VInt 1)
  else Ret (match args with Some l => VTuple l | None => VNone end).

Fixpoint key_fold (o : Opt) (cur : option Val) (xs : list (option (list Val)))
  : outcome (option Val) :=
  match xs with
  | [] => Ret cur
  | x :: r => v <- key_step o cur x ;; key_fold o (Some v) r
  end.




(** The name [k] is matched by a global option of the mode that is
    repeatable and takes no parameter: its entry is a count. *)
Definition counted (m : Mode) (k : string) : bool :=
  match global_match m k with
  | Some o => isplural o && null (oparams o)
  | None => false
  end.

Definition is_int (v : Val) : bool :=
  match v with VInt _ => true | _ => false end.

(** The entries of counted options are integers. *)
Definition counts_ok (m : Mode) (d : dict Val) : bool :=
  forallb (fun kv => implb (counted m (fst kv)) (is_int (snd kv))) d.

(** The global options of [m] found among the names [ks] are counted in
    the child mode [mc] exactly when they are counted in [m]. *)
Definition inherits (m mc : Mode) (ks : list string) : bool :=
  forallb (fun k => match global_match m k with
                    | Some _ => Bool.eqb (counted m k) (counted mc k)
                    | None => true
                    end) ks.

(** A chain of results whose counts are integers and whose modes agree,
    from parent to child, on which global options are counted;
    [inherited] lists the names that may come down from above. *)
Fixpoint chain_ok (inherited : list string) (ui : ParsedUI) : bool :=
  counts_ok (_mode ui) (_options ui) &&
  match _child ui with
  | None => true
  | Some c =>
      inherits (_mode ui) (_mode c) (inherited ++ keys (_options ui))
      && chain_ok (inherited ++ keys (_options ui)) c
  end.

(** ** Concrete collaborators

    A classifier, a way to build modes from declarations, and the modes and
    results the examples below run on. *)
Module Sample.

(** Modelled from the spec: [shared.lookslikeopt] is not in the sources at
    hand; a token looks like an option when it begins with one or two
    leading dashes and is not a bare separator. *)
Definition dashed (s : string) : bool :=
  match s with
  | String "-" (String "-" (String c _)) => negb (Ascii.eqb c "-")
  | String "-" (String "-" EmptyString) => false
  | String "-" (String _ _) => true
  | _ => false
  end.

(** Modelled from the spec: the option descriptor is not in the sources at
    hand; it has a canonical name, zero or one alias, its declared
    parameters and a plurality flag. *)
Record Decl : Type := mkDecl {
  d_name : string;
  d_alias : option string;
  d_params : list Param;
  d_plural : bool
}.

Definition d_match (d : Decl) (s : string) : bool :=
  (s =? d_name d) || match d_alias d with Some a => s =? a | None => false end.

Definition opt_of (d : Decl) : Opt := mkOpt (d_match d) (d_params d) (d_plural d).

(** The other name of the option; its own name when it has no alias. *)
Definition d_other (d : Decl) (s : string) : string :=
  match d_alias d with
  | Some a => if s =? d_name d then a else d_name d
  | None => s
  end.

(** Modelled from the spec: the mode descriptor is not in the sources at
    hand; it owns option descriptors partitioned by scope and named child
    modes, and answers every query by the first declared option that
    matches the token. *)
Definition mode_of (locals globals : list Decl) (children : dict Mode) : Mode :=
  let lookup s := find (fun d => d_match d s) (locals ++ globals) in
  mkMode
    (fun s => match lookup s with Some _ => true | None => false end)
    (fun s => match lookup s with Some d => d_params d | None => [] end)
    (fun s => match lookup s with Some d => d_other d s | None => "" end)
    (fun s => option_map opt_of (lookup s))
    (map opt_of globals)
    children.

(** The handler [str]. *)
Definition h_str : handler := fun raw => inl (VStr raw).

Definition handlers : registry := [("str", h_str)].

Definition parse := parse dashed handlers handlers.

(** A mode with the flag [-x] and the child mode [go], which has the flag
    [-y]. *)
Definition go : Mode := mode_of [mkDecl "-y" None [] false] [] [].

Definition root : Mode := mode_of [mkDecl "-x" None [] false] [] [("go", go)].

(** A tool with the flag [--flag], the repeatable flag [-v] with the alias
    [--verbose], the one-parameter option [--opt], and a child mode [a]. *)
Definition tool_a : Mode := mode_of [] [mkDecl "-v" (Some "--verbose") [] true] [].

Definition tool : Mode :=
  mode_of [mkDecl "--flag" None [] false; mkDecl "--opt" None [PName "str"] false]
          [mkDecl "-v" (Some "--verbose") [] true]
          [("a", tool_a)].

(** A parent result with [-v] counted three times and a child result with
    [-v] counted twice. *)
Definition ui_child : ParsedUI :=
  mkUI [("-v", VInt 2); ("--verbose", VInt 2)] ["x"] "a" tool_a None.

Definition ui_parent : ParsedUI :=
  mkUI [("--flag", VNone); ("-v", VInt 3); ("--verbose", VInt 3)] [] "" tool
       (Some ui_child).

(** The same parent over a child result without any option. *)
Definition ui_bare_child : ParsedUI := mkUI [] ["x"] "a" tool_a None.

Definition ui_parent' : ParsedUI :=
  mkUI [("--flag", VNone); ("-v", VInt 3); ("--verbose", VInt 3)] [] "" tool
       (Some ui_bare_child).

(** In [root], [-x] is a flag of the mode, [-y] is accepted by the child
    mode [go] and not by [root], and [file1] names no child mode. *)
Definition accepts_only_child : bool :=
  is_flag dashed root "-x" && accepts go "-y" && negb (accepts root "-y")
  && negb (hasmode root "file1").

End Sample.


(** * The rest of [parser.py] *)

(** ** More of [Parser] *)

(** The prefix of [l] before the first [x]: [l[:l.index(x)]]. *)
Fixpoint take_before (x : string) (l : list string) : list string :=
  match l with
  | [] => []
  | y :: r => if y =? x then [] else y :: take_before x r
  end.

(** [x in l] for a list of strings. *)
Definition mem (x : string) (l : list string) : bool := existsb (String.eqb x) l.

Module Parser.

(** The state of a [Parser] object.  [_parsed_options] and
    [_parsed_operands] are the two entries of the dictionary [_parsed];
    [_pmode] is the attribute [_mode].  The dictionary of options is made
    once, in [__init__], and every result the parser hands out refers to
    it. *)
Record t : Type := mk {
  _args : list string;
  _pmode : Mode;
  _parsed_options : dict Val;
  _parsed_operands : list string;
  _breaker : bool;
  _ui : option ParsedUI;
  _typehandlers : registry
}.

(** [Parser._loadtypehandlers], with the dictionary [TYPEHANDLERS] as an
    argument. *)
Definition _loadtypehandlers (TYPEHANDLERS : registry) (th : registry) : registry :=
  fold_left (fun th kv => dict_set th (fst kv) (snd kv)) TYPEHANDLERS th.

(** [Parser.addTypeHandler] *)
Definition addTypeHandler (p : t) (name : string) (callback : handler) : t :=
  mk (_args p) (_pmode p) (_parsed_options p) (_parsed_operands p) (_breaker p)
     (_ui p) (dict_set (_typehandlers p) name callback).

(** [Parser.feed] *)
Definition feed (p : t) (argv : list string) : t :=
  mk argv (_pmode p) (_parsed_options p) (_parsed_operands p) (_breaker p)
     (_ui p) (_typehandlers p).

(** [Parser.getargs] *)
Definition getargs (p : t) : list string := _args p.

(** [Parser.ui] *)
Definition ui (p : t) : option ParsedUI := _ui p.

(** [Parser.getoperands] *)
Definition getoperands (p : t) : list string := _parsed_operands p.

(** [Parser.__contains__] *)
Definition __contains__ (p : t) (option : string) : bool :=
  dict_mem option (_parsed_options p).

(** [Parser.get] *)
Definition get (p : t) (key : string) (tuplise : bool) : outcome Val :=
  match getopt (_pmode p) key with
  | None => Raise (OptionNotFound key)
  | Some option =>
      value <- dict_item (_parsed_options p) key ;;
      if isplural option && null (oparams option) then Ret value
      else if null (oparams option) then Ret VNone
      else if (length (oparams option) =? 1)%nat && negb (isplural option)
      then py_getitem0 value
      else if tuplise then
        (if isplural option
         then vs <- py_iter value ;; ts <- mapM py_tuple vs ;; Ret (VList ts)
         else py_tuple value)
      else Ret value
  end.

Section Methods.

Variable lookslikeopt : string -> bool.

(** What [__init__] leaves in [_typehandlers]: the built-in handlers with
    the entries of [TYPEHANDLERS] written over them. *)
Variable default_typehandlers : registry.

(** [Parser.__init__] with [argv] left to its default. *)
Definition __init__ (mode : Mode) : t :=
  mk [] mode [] [] false None default_typehandlers.

(** [Parser._getoperands].  With [heur] set and a mode that has child
    modes, the call [self.getOperandsRange()] is made; [Parser] has no
    attribute of that name.  The result comes with the new value of
    [_breaker]. *)
Definition _getoperands (p : t) (heur : bool) : outcome (list string * bool) :=
  if heur && negb (null (modes (_pmode p))) then Raise AttributeError
  else
    input <- _getinput lookslikeopt (_pmode p) (_args p) ;;
    let n := length input in
    let operands := skipn n (_args p) in
    let breaker := match operands with
                   | o :: _ => o =? "--"
                   | [] => _breaker p
                   end in
    let operands := if breaker && negb (null operands) then tl operands else operands in
    let operands := if mem "---" operands && breaker
                    then take_before "---" operands else operands in
    Ret (operands, breaker).

(** The [while] loop of [Parser._strininput]. *)
Fixpoint strininput_loop (fuel : nat) (m : Mode) (string : String.string)
  (input : list String.string) (i : nat) : outcome bool :=
  match fuel with
  | O => OutOfFuel
  | S fuel' =>
      if (i <? length input)%nat then
        let s := nth i input "" in
        if string =? s then Ret true
        else if lookslikeopt s && accepts m s then
          match getopt m s with
          | None => Raise (OptionNotFound s)
          | Some o => strininput_loop fuel' m string input (i + length (oparams o) + 1)%nat
          end
        else strininput_loop fuel' m string input (i + 1)%nat
      else Ret false
  end.

(** [Parser._strininput] *)
Definition _strininput (p : t) (string : String.string) : outcome bool :=
  input <- _getinput lookslikeopt (_pmode p) (_args p) ;;
  strininput_loop (S (length input)) (_pmode p) string input 0%nat.

(** The [while] loop of [Parser._ininput]. *)
Fixpoint ininput_loop (fuel : nat) (m : Mode) (option : Opt)
  (input : list String.string) (i : nat) : outcome bool :=
  match fuel with
  | O => OutOfFuel
  | S fuel' =>
      if (i <? length input)%nat then
        let s := nth i input "" in
        if omatch option s then Ret true
        else if lookslikeopt s && accepts m s then
          match getopt m s with
          | None => Raise (OptionNotFound s)
          | Some o => ininput_loop fuel' m option input (i + length (oparams o) + 1)%nat
          end
        else ininput_loop fuel' m option input (i + 1)%nat
      else Ret false
  end.

(** [Parser._ininput] *)
Definition _ininput (p : t) (option : Opt) : outcome bool :=
  input <- _getinput lookslikeopt (_pmode p) (_args p) ;;
  ininput_loop (S (length input)) (_pmode p) option input 0%nat.

(** [Parser.parse] on the state of the parser: the occurrences are stored
    into the dictionary the parser already has.  The nested parser is a
    new one; its result is the one [parse_named] gives, with room for as
    many nested calls as it has tokens.  A run that raises leaves no state
    to look at. *)
Definition parse (p : t) : outcome t :=
  let m := _pmode p in
  input <- _getinput lookslikeopt m (_args p) ;;
  options <- parse_loop lookslikeopt (S (length input)) (_typehandlers p) m input 0%nat [] ;;
  parsed_options <- store_all m (_parsed_options p) options ;;
  r <- _getheuroperands lookslikeopt m (_args p) ;;
  let '(operands, nested) := r in
  child <-
    match nested with
    | [] => Ret None
    | name :: nested' =>
        mode <- dict_item (_modes m) name ;;
        c <- parse_named lookslikeopt default_typehandlers (length nested')
               default_typehandlers name mode nested' ;;
        Ret (Some c)
    end ;;
  Ret (mk (_args p) m parsed_options operands (_breaker p)
          (Some (mkUI parsed_options operands "" m child)) (_typehandlers p)).

End Methods.

End Parser.

(** How often the flag [k] is given among the tokens [zs], at its own
    spelling or at one the mode names [k] the alias of. *)
Definition mentions (m : Mode) (k : string) (zs : list string) : nat :=
  length (filter (fun z => (z =? k) || (alias m z =? k)) zs).




(** ** The chain of [ParsedUI] objects

    [up], [top] and [_appendmode] work on the links between the objects,
    so the objects live in a store and refer to each other by address. *)
Module Chain.

(** A [ParsedUI] object with its links. *)
Record obj : Type := mk {
  _options : dict Val;
  _operands : list string;
  _name : string;
  _mode : option Mode;
  _child : option nat;
  _parent : option nat
}.

Definition heap : Type := list obj.

(** [ParsedUI.__init__] *)
Definition __init__ : obj := mk [] [] "" None None None.

(** Writing an attribute of the object at address [a]. *)
Fixpoint update (h : heap) (a : nat) (f : obj -> obj) : heap :=
  match h, a with
  | [], _ => []
  | o :: r, O => f o :: r
  | o :: r, S a' => o :: update r a' f
  end.

Definition child_of (h : heap) (a : nat) : option nat :=
  match nth_error h a with Some o => _child o | None => None end.

Definition parent_of (h : heap) (a : nat) : option nat :=
  match nth_error h a with Some o => _parent o | None => None end.

(** [ParsedUI._appendmode]: [mode._parent = self], then
    [self._child = mode]. *)
Definition _appendmode (h : heap) (self mode : nat) : heap :=
  let h1 := update h mode
              (fun o => mk (_options o) (_operands o) (_name o) (_mode o) (_child o)
                           (Some self)) in
  update h1 self
    (fun o => mk (_options o) (_operands o) (_name o) (_mode o) (Some mode) (_parent o)).

(** [ParsedUI.down] *)
Definition down (h : heap) (self : nat) : nat :=
  match child_of h self with Some c => c | None => self end.

(** [ParsedUI.up] *)
Definition up (h : heap) (self : nat) : nat :=
  match parent_of h self with Some p => p | None => self end.

(** [ParsedUI.islast] *)
Definition islast (h : heap) (self : nat) : bool :=
  match child_of h self with None => true | Some _ => false end.

(** [ParsedUI.top]: the loop [while cherry._parent is not None]. *)
Fixpoint top (fuel : nat) (h : heap) (cherry : nat) : outcome nat :=
  match fuel with
  | O => OutOfFuel
  | S fuel' =>
      match parent_of h cherry with
      | Some p => top fuel' h p
      | None => Ret cherry
      end
  end.

(** [ParsedUI.__len__] *)
Definition __len__ (h : heap) (self : nat) : nat :=
  match nth_error h self with Some o => length (_operands o) | None => 0 end.

End Chain.

(** The objects of a result chain before they are linked, the top one
    first: each [parse] makes its own [ParsedUI]. *)
Fixpoint objects_of (ui : ParsedUI) : Chain.heap :=
  Chain.mk (_options ui) (_operands ui) (_name ui)
     (Some (_mode ui)) None None ::
  match _child ui with
  | None => []
  | Some c => objects_of c
  end.

(** The links as [parse] makes them: the nested parse has linked its own
    chain when the caller appends it. *)
Fixpoint link (h : Chain.heap) (a : nat) (n : nat) : Chain.heap :=
  match n with
  | O => h
  | S n' => Chain._appendmode (link h (S a) n') a (S a)
  end.

(** The store holding the chain of a result of [parse], the top at
    address [0]. *)
Definition heap_of (ui : ParsedUI) : Chain.heap := link (objects_of ui) 0 (nesting ui).

(** * The single-level parser ([clap.py]) *)

Module Legacy.

(** The exceptions of [clap.py], and the two Python raises on its own
    for an empty string and for a name that was never bound. *)
Inductive error : Type :=
| UnexpectedOptionError (opt : string)
| SwitchValueError (opt : string)
| NotParsedError
| OptionNotFoundError (opt : string)
| IndexError
| UnboundLocalError.

Inductive result (A : Type) : Type :=
| Ok (a : A)
| Err (e : error).

Arguments Ok {A} a.
Arguments Err {A} e.

Definition bind {A B : Type} (x : result A) (k : A -> result B) : result B :=
  match x with
  | Ok a => k a
  | Err e => Err e
  end.

(** The attributes of a [Parser] object. *)
Record t : Type := mk {
  descript_short : list string;
  descript_long : list string;
  argv : list string;
  opts : list (string * string);
  args : list string;
  parsed : bool
}.

(** The loop of [setshort] over the characters of [opts]: a character
    followed by a colon takes the colon along, and a bare colon is not
    declared. *)
Fixpoint shorts_of (cs : list ascii) : list string :=
  match cs with
  | [] => []
  | c :: rest =>
      let opt := match rest with
                 | ":"%char :: _ => String c ":"
                 | _ => String c ""
                 end in
      (if opt =? ":" then [] else [("-" ++ opt)%string]) ++ shorts_of rest
  end.

(** [Parser.setshort] *)
Definition setshort (p : t) (opts_ : string) : t :=
  mk (shorts_of (list_ascii_of_string opts_)) (descript_long p) (argv p) (opts p)
     (args p) (parsed p).

(** [Parser.setlong] *)
Definition setlong (p : t) (opts_ : list string) : t :=
  mk (descript_short p) opts_ (argv p) (opts p) (args p) (parsed p).

(** [Parser.setargv] *)
Definition setargv (p : t) (argv_ : list string) : t :=
  mk (descript_short p) (descript_long p) argv_ (opts p) (args p) (parsed p).

(** [Parser.__init__] *)
Definition __init__ (short : string) (long : list string) (argv_ : list string) : t :=
  mk (shorts_of (list_ascii_of_string short)) long argv_ [] [] false.

(** [Parser.getshorts] *)
Definition getshorts (p : t) : list string := descript_short p.

(** [Parser.getlongs] *)
Definition getlongs (p : t) : list string :=
  map (fun opt => ("--" ++ opt)%string) (descript_long p).

(** [opt[2:]] *)
Definition drop2 (opt : string) : string :=
  match opt with
  | String _ (String _ r) => r
  | _ => ""
  end.

(** [Parser.isopt]; the mode is ["s"], ["l"] or anything else for both. *)
Definition isopt (p : t) (opt : string) (mode : string) : bool :=
  if mode =? "s" then mem opt (descript_short p)
  else if mode =? "l" then mem (drop2 opt) (descript_long p)
  else mem opt (descript_short p) || mem (drop2 opt) (descript_long p).

(** [Parser._areopts] *)
Definition _areopts (p : t) (opts_ : list string) (mode : string) : bool :=
  forallb (fun opt => isopt p opt mode) opts_.

(** [Parser.check], from the argument at hand on: [rest] is
    [self.argv[i:]]. *)
Fixpoint check_from (p : t) (strict : bool) (rest : list string) : result unit :=
  match rest with
  | [] => Ok tt
  | arg :: rest' =>
      if isopt p (arg ++ ":")%string "b" && null rest'
      then Err (SwitchValueError arg)
      else if isopt p (arg ++ ":")%string "b" && strict then
        match rest' with
        | next :: _ =>
            if isopt p (next ++ ":")%string "b" || isopt p next "b"
            then Err (SwitchValueError arg)
            else check_from p strict rest'
        | [] => Err IndexError
        end
      else check_from p strict rest'
  end.

(** [Parser.check] *)
Definition check (p : t) (strict : bool) : result unit :=
  check_from p strict (argv p).

(** The loop of [Parser._parseopts]: [rest] is [self.argv[i:]] and
    [opts_] the list built so far; the result is that list and the index
    the loop stops at. *)
Fixpoint parseopts_from (p : t) (rest : list string) (i : nat)
  (opts_ : list (string * string)) : result (list (string * string) * nat) :=
  match rest with
  | [] => Ok (opts_, i)
  | opt :: rest' =>
      if opt =? "--" then Ok (opts_, i + 1)%nat
      else if isopt p opt "b" then
        parseopts_from p rest' (i + 1)%nat (opts_ ++ [(opt, "")])
      else if isopt p (opt ++ ":")%string "b" then
        match rest' with
        | [] => Err (SwitchValueError opt)
        | value :: rest'' =>
            parseopts_from p rest'' (i + 1 + 1)%nat (opts_ ++ [(opt, value)])
        end
      else
        match opt with
        | EmptyString => Err IndexError                       (* opt[0] *)
        | String c _ =>
            if Ascii.eqb c "-" then Err (UnexpectedOptionError opt)
            else Ok (opts_, i)
        end
  end.

(** [Parser._parseopts]: the new state and the index returned. *)
Definition _parseopts (p : t) : result (t * nat) :=
  bind (parseopts_from p (argv p) 0%nat [])
       (fun r => Ok (mk (descript_short p) (descript_long p) (argv p) (fst r)
                        (args p) (parsed p), snd r)).

(** [Parser.parse] *)
Definition parse (p : t) : result t :=
  bind (_parseopts p)
       (fun r => let '(p1, n) := r in
                 Ok (mk (descript_short p1) (descript_long p1) (argv p1) (opts p1)
                        (skipn n (argv p1)) true)).

(** [Parser.listaccepted] *)
Definition listaccepted (p : t) : list string :=
  filter (fun opt => negb (opt =? "--"))
         (descript_short p ++ map (fun opt => ("--" ++ opt)%string) (descript_long p)).

(** [Parser.getpassed] *)
Definition getpassed (p : t) : result (list string) :=
  if negb (parsed p) then Err NotParsedError
  else Ok (map fst (opts p)).

(** [Parser.waspassed] *)
Definition waspassed (p : t) (opt : string) : result bool :=
  bind (getpassed p) (fun passed => Ok (mem opt passed)).

(** [Parser.getopt] *)
Definition getopt (p : t) (opt : string) : result string :=
  match find (fun kv => fst kv =? opt) (opts p) with
  | Some (_, value) => Ok value
  | None => Err (OptionNotFoundError opt)
  end.

(** [Parser.getargs] *)
Definition getargs (p : t) : list string := args p.

(** [[ "-{0}".format(opt) for opt in list(arg)[1:] ]] *)
Definition letters (arg : string) : list string :=
  map (fun c => String "-" (String c "")) (tl (list_ascii_of_string arg)).

(** The loop of [Parser._splitshorts]: [rest] is what is left of
    [self.argv], [acc] the list [argv] built so far.  At the separator
    the loop breaks and the rest of [self.argv] is appended. *)
Fixpoint splitshorts_from (p : t) (rest : list string) (acc : list string)
  : result (list string) :=
  match rest with
  | [] => Ok acc
  | arg :: rest' =>
      let otherwise :=
        if arg =? "--" then Ok (acc ++ ["--"] ++ rest')
        else splitshorts_from p rest' (acc ++ [arg]) in
      if _areopts p (letters arg) "s" then
        match arg with
        | EmptyString => Err IndexError                       (* arg[0] *)
        | String c _ =>
            if Ascii.eqb c "-" && negb (arg =? "--")
            then splitshorts_from p rest' (acc ++ letters arg)
            else otherwise
        end
      else otherwise
  end.

(** [Parser._splitshorts]; with no argument the loop variable [i] is
    never bound. *)
Definition _splitshorts (p : t) : result t :=
  match argv p with
  | [] => Err UnboundLocalError
  | _ :: _ =>
      bind (splitshorts_from p (argv p) [])
           (fun argv_ => Ok (mk (descript_short p) (descript_long p) argv_ (opts p)
                                (args p) (parsed p)))
  end.

(** The tokens an entry of [opts] stands for: the option alone when it is
    declared without a value, the option and its value otherwise. *)
Definition tokens_of (p : t) (kv : string * string) : list string :=
  if isopt p (fst kv) "b" then [fst kv] else [fst kv; snd kv].

(** [z] is declared as an option without value. *)
Definition is_switch (p : t) (z : string) : bool :=
  negb (z =? "--") && isopt p z "b".

End Legacy.

(** ** More concrete modes

    A service tool with three levels of modes.  The repeatable flag [-v]
    (alias [--verbose]) and the one-parameter option [--out] are global at
    every level; [--local] belongs to the top, [--when] to the mode [sub]
    and takes a value of the custom type [date]. *)
Module Sample2.

Definition globals : list Sample.Decl :=
  [Sample.mkDecl "-v" (Some "--verbose") [] true;
   Sample.mkDecl "--out" None [PName "str"] false].

Definition leaf : Mode := Sample.mode_of [] globals [].

Definition sub : Mode :=
  Sample.mode_of [Sample.mkDecl "--when" None [PName "date"] false] globals
                 [("leaf", leaf)].

Definition top : Mode :=
  Sample.mode_of [Sample.mkDecl "--local" None [] false] globals [("sub", sub)].

(** A handler for the type [date], which keeps the raw text. *)
Definition h_date : handler := fun raw => inl (VObj raw).

(** A chain of three results before [finalise]. *)
Definition ui_leaf : ParsedUI := mkUI [] ["job"] "leaf" leaf None.

Definition ui_sub : ParsedUI :=
  mkUI [("--out", VTuple [VStr "b"])] [] "sub" sub (Some ui_leaf).

Definition ui_top : ParsedUI :=
  mkUI [("--local", VNone); ("--out", VTuple [VStr "a"]);
        ("-v", VInt 1); ("--verbose", VInt 1)] [] "" top (Some ui_sub).

(** A new parser for [top] with the default handlers of [Sample]. *)
Definition parser (args : list string) : Parser.t :=
  Parser.feed (Parser.__init__ Sample.handlers top) args.

End Sample2.

(** A new parser for [Sample.tool] with the default handlers of [Sample]. *)
Definition tool_parser (args : list string) : Parser.t :=
  Parser.feed (Parser.__init__ Sample.handlers Sample.tool) args.

(** A legacy parser with the flags [-v] and [-h], the option [-o] taking a
    value, the long flag [--help] and the long option [--name] taking a
    value. *)
Definition legacy_parser (argv : list string) : Legacy.t :=
  Legacy.__init__ "vho:" ["help"; "name:"] argv.

(** * Properties *)

(** ** Outcomes and dictionaries *)

Lemma bind_ret_inv {A B : Type} (x : outcome A) (k : A -> outcome B) (b : B) :
  bind x k = Ret b -> exists a, x = Ret a /\ k a = Ret b.
Proof.
  destruct x as [a| |]; simpl; intros H; try discriminate.
  exists a; split; [reflexivity | exact H].
Qed.

Lemma bind_fuel_inv {A B : Type} (x : outcome A) (k : A -> outcome B) :
  bind x k = OutOfFuel -> x = OutOfFuel \/ exists a, x = Ret a /\ k a = OutOfFuel.
Proof.
  destruct x as [a| |]; simpl; intros H; try discriminate.
  - right; exists a; split; [reflexivity | exact H].
  - left; reflexivity.
Qed.

Lemma dict_get_set_same {V : Type} (d : dict V) (k : string) (v : V) :
  dict_get (dict_set d k v) k = Some v.
Proof.
  induction d as [|[k' v'] r IH]; simpl.
  - rewrite String.eqb_refl; reflexivity.
  - destruct (k' =? k) eqn:E; simpl.
    + rewrite String.eqb_refl; reflexivity.
    + rewrite E; exact IH.
Qed.

Lemma dict_get_set_other {V : Type} (d : dict V) (k k' : string) (v : V) :
  k <> k' -> dict_get (dict_set d k v) k' = dict_get d k'.
Proof.
  intros Hne; induction d as [|[k0 v0] r IH]; simpl.
  - destruct (k =? k') eqn:E; [apply String.eqb_eq in E; contradiction | reflexivity].
  - destruct (k0 =? k) eqn:E; simpl.
    + apply String.eqb_eq in E; subst k0.
      destruct (k =? k') eqn:E'; [apply String.eqb_eq in E'; contradiction | reflexivity].
    + destruct (k0 =? k'); [reflexivity | exact IH].
Qed.

Lemma dict_set_twice {V : Type} (d : dict V) (k : string) (v v' : V) :
  dict_set (dict_set d k v) k v' = dict_set d k v'.
Proof.
  induction d as [|[k0 v0] r IH]; simpl.
  - rewrite String.eqb_refl; reflexivity.
  - destruct (k0 =? k) eqn:E; simpl.
    + rewrite String.eqb_refl; reflexivity.
    + rewrite E, IH; reflexivity.
Qed.

Lemma dict_mem_set_same {V : Type} (d : dict V) (k : string) (v : V) :
  dict_mem k (dict_set d k v) = true.
Proof. unfold dict_mem; rewrite dict_get_set_same; reflexivity. Qed.

Lemma dict_mem_set_other {V : Type} (d : dict V) (k k' : string) (v : V) :
  k <> k' -> dict_mem k' (dict_set d k v) = dict_mem k' d.
Proof. intros Hne; unfold dict_mem; rewrite dict_get_set_other by exact Hne; reflexivity. Qed.

Lemma dict_item_set_same {V : Type} (d : dict V) (k : string) (v : V) :
  dict_item (dict_set d k v) k = Ret v.
Proof. unfold dict_item; rewrite dict_get_set_same; reflexivity. Qed.

Lemma dict_mem_false_get {V : Type} (d : dict V) (k : string) :
  dict_mem k d = false -> dict_get d k = None.
Proof. unfold dict_mem; destruct (dict_get d k); [discriminate | reflexivity]. Qed.

(** ** The accessors of [ParsedUI] *)

(** C8 (as amended): for a name the mode's lookup does not know, [get]
    fails with the lookup's [OptionNotFound] error, whereas the [in] test
    does not fail: it answers whether the options map has an entry under
    that name, and [False] when it has none. *)
Theorem get_fails_contains_answers (ui : ParsedUI) (name : string) (tuplise : bool) :
  getopt (_mode ui) name = None ->
  get ui name tuplise = Raise (OptionNotFound name)
  /\ __contains__ ui name = Ret (dict_mem name (_options ui))
  /\ (dict_get (_options ui) name = None -> __contains__ ui name = Ret false).
Proof.
  intros Hget; unfold get, __contains__; rewrite Hget.
  repeat split.
  intros Habs; unfold dict_mem; rewrite Habs; reflexivity.
Qed.

Lemma get_fails_contains_answers_witness :
  get Sample.ui_parent "--nope" true = Raise (OptionNotFound "--nope")
  /\ __contains__ Sample.ui_parent "--nope" = Ret (dict_mem "--nope" (_options Sample.ui_parent))
  /\ (dict_get (_options Sample.ui_parent) "--nope" = None ->
      __contains__ Sample.ui_parent "--nope" = Ret false).
Proof. apply (get_fails_contains_answers Sample.ui_parent "--nope" true); reflexivity. Defined.

(** C8 as stated fails: on a result of the mode [tool], which declares no
    option [--nope], the [in] test returns [False] instead of failing. *)
Lemma contains_undeclared_returns :
  getopt (_mode Sample.ui_parent) "--nope" = None
  /\ __contains__ Sample.ui_parent "--nope" = Ret false
  /\ ~ (exists e, __contains__ Sample.ui_parent "--nope" = Raise e).
Proof.
  repeat split.
  intros [e H]; discriminate H.
Qed.

(** ** Propagation of global options *)

Lemma finalise_item_other (m : Mode) (copts copts' : dict Val) (k' k : string) (v' : Val) :
  k' <> k -> finalise_item m copts (k', v') = Ret copts' ->
  dict_get copts' k = dict_get copts k.
Proof.
  intros Hne H. unfold finalise_item in H.
  destruct (global_match m k') as [mt|]; [|injection H as <-; reflexivity].
  apply bind_ret_inv in H. destruct H as [c1 [H1 H2]].
  assert (E1 : dict_get c1 k = dict_get copts k).
  { destruct (dict_mem k' copts && isplural mt && null (oparams mt)).
    - apply bind_ret_inv in H1. destruct H1 as [w [_ H1]].
      apply bind_ret_inv in H1. destruct H1 as [w' [_ H1]].
      injection H1 as <-. apply dict_get_set_other; exact Hne.
    - injection H1 as <-. reflexivity. }
  injection H2 as <-.
  destruct (negb (dict_mem k' c1)); [|exact E1].
  rewrite dict_get_set_other by exact Hne. exact E1.
Qed.

(** Entries of the child that the parent has no entry for are left alone. *)
Lemma finalise_items_absent (m : Mode) (k : string) (items : dict Val) :
  dict_mem k items = false ->
  forall copts copts', finalise_items m items copts = Ret copts' ->
                       dict_get copts' k = dict_get copts k.
Proof.
  induction items as [|[k' v'] r IH]; intros Hmem copts copts' H.
  - injection H as <-. reflexivity.
  - unfold dict_mem in Hmem. cbn [dict_get] in Hmem.
    destruct (k' =? k) eqn:E; [discriminate|].
    apply String.eqb_neq in E.
    cbn [finalise_items] in H. apply bind_ret_inv in H. destruct H as [c1 [H1 H2]].
    rewrite (IH Hmem _ _ H2). exact (finalise_item_other _ _ _ _ _ _ E H1).
Qed.

(** The entry of the child under [k] is decided by the one turn of the
    loop that handles the parent's entry under [k]. *)
Lemma finalise_items_reach (m : Mode) (k : string) (v : Val) (items : dict Val) :
  nodup_keys items = true -> dict_get items k = Some v ->
  forall copts copts', finalise_items m items copts = Ret copts' ->
    exists c0 c1, dict_get c0 k = dict_get copts k
                  /\ finalise_item m c0 (k, v) = Ret c1
                  /\ dict_get copts' k = dict_get c1 k.
Proof.
  induction items as [|[k' v'] r IH]; intros Hnd Hget copts copts' H; [discriminate|].
  cbn [nodup_keys] in Hnd. apply andb_prop in Hnd. destruct Hnd as [Hfresh Hnd].
  apply negb_true_iff in Hfresh.
  cbn [finalise_items] in H. apply bind_ret_inv in H. destruct H as [c1 [H1 H2]].
  cbn [dict_get] in Hget. destruct (k' =? k) eqn:E.
  - apply String.eqb_eq in E. subst k'. injection Hget as ->.
    exists copts, c1. repeat split; [exact H1|].
    exact (finalise_items_absent m k r Hfresh _ _ H2).
  - apply String.eqb_neq in E.
    destruct (IH Hnd Hget _ _ H2) as [c0 [c2 [E0 [E1 E2]]]].
    exists c0, c2. repeat split; [|exact E1|exact E2].
    rewrite E0. exact (finalise_item_other _ _ _ _ _ _ E H1).
Qed.

(** What [finalise] leaves in a node and how it reaches the child. *)
Lemma finalise_from_inv (ui ui' : ParsedUI) (opts : dict Val) :
  finalise_from ui opts = Ret ui' ->
  _options ui' = opts /\ _mode ui' = _mode ui
  /\ match _child ui with
     | None => _child ui' = None
     | Some c => exists copts c',
         finalise_items (_mode ui) opts (_options c) = Ret copts
         /\ finalise_from c copts = Ret c' /\ _child ui' = Some c'
     end.
Proof.
  destruct ui as [o ops n m ch]. cbn [finalise_from _child _mode _operands _name].
  destruct ch as [c|]; intros H.
  - apply bind_ret_inv in H. destruct H as [copts [H1 H]].
    apply bind_ret_inv in H. destruct H as [c' [H2 H]].
    injection H as <-. cbn. repeat split. exists copts, c'. auto.
  - injection H as <-. cbn. auto.
Qed.

(** *** [finalise] returns on well-shaped chains *)

Lemma dict_get_In {V : Type} (d : dict V) (k : string) (v : V) :
  dict_get d k = Some v -> In (k, v) d.
Proof.
  induction d as [|[k' v'] r IH]; cbn [dict_get]; [discriminate|].
  destruct (k' =? k) eqn:E.
  - apply String.eqb_eq in E. subst k'. intros H; injection H as ->. left; reflexivity.
  - intros H. right. exact (IH H).
Qed.

Lemma keys_set_incl {V : Type} (d : dict V) (k : string) (v : V) :
  incl (keys (dict_set d k v)) (k :: keys d).
Proof.
  induction d as [|[k' v'] r IH]; cbn [dict_set keys map fst].
  - apply incl_refl.
  - destruct (k' =? k) eqn:E; cbn [map fst].
    + intros s [<-|Hs]; [left; reflexivity | right; right; exact Hs].
    + intros s [<-|Hs]; [right; left; reflexivity|].
      destruct (IH s Hs) as [<-|Hin]; [left; reflexivity | right; right; exact Hin].
Qed.

Lemma counts_ok_set (m : Mode) (d : dict Val) (k : string) (v : Val) :
  counts_ok m d = true -> (counted m k = true -> is_int v = true) ->
  counts_ok m (dict_set d k v) = true.
Proof.
  intros Hd Hv. unfold counts_ok in *.
  induction d as [|[k' v'] r IH]; cbn [dict_set forallb fst snd].
  - rewrite andb_true_r. destruct (counted m k); [apply Hv; reflexivity | reflexivity].
  - cbn [forallb fst snd] in Hd. apply andb_prop in Hd. destruct Hd as [H1 H2].
    destruct (k' =? k); cbn [forallb fst snd].
    + rewrite H2, andb_true_r.
      destruct (counted m k); [apply Hv; reflexivity | reflexivity].
    + rewrite H1, (IH H2). reflexivity.
Qed.

Lemma counts_ok_get (m : Mode) (d : dict Val) (k : string) (v : Val) :
  counts_ok m d = true -> dict_get d k = Some v -> counted m k = true ->
  exists n, v = VInt n.
Proof.
  intros Hd Hget Hc. unfold counts_ok in Hd. rewrite forallb_forall in Hd.
  specialize (Hd _ (dict_get_In _ _ _ Hget)). cbn [fst snd] in Hd.
  rewrite Hc in Hd. destruct v; try discriminate. eexists; reflexivity.
Qed.

(** One turn of the loop of [finalise] keeps the child's map well
    shaped. *)
Lemma finalise_item_returns (m mc : Mode) (copts : dict Val) (k : string) (v : Val) :
  counts_ok mc copts = true ->
  (counted m k = true -> is_int v = true) ->
  (global_match m k <> None -> counted m k = counted mc k) ->
  exists copts', finalise_item m copts (k, v) = Ret copts'
                 /\ counts_ok mc copts' = true
                 /\ incl (keys copts') (k :: keys copts).
Proof.
  intros Hc Hv Hsame. unfold finalise_item.
  destruct (global_match m k) as [mt|] eqn:Hg.
  2:{ exists copts. repeat split; [exact Hc | apply incl_tl, incl_refl]. }
  assert (Hcnt : counted m k = isplural mt && null (oparams mt))
    by (unfold counted; rewrite Hg; reflexivity).
  specialize (Hsame ltac:(discriminate)).
  assert (H1 : exists c1,
            (if dict_mem k copts && isplural mt && null (oparams mt)
             then w <- dict_item copts k ;; w' <- py_iadd w v ;; Ret (dict_set copts k w')
             else Ret copts) = Ret c1
            /\ counts_ok mc c1 = true /\ incl (keys c1) (k :: keys copts)).
  { rewrite <- andb_assoc, <- Hcnt.
    destruct (dict_mem k copts) eqn:Hmem; cbn [andb];
      [|exists copts; repeat split; [exact Hc | apply incl_tl, incl_refl]].
    destruct (counted m k) eqn:Hck;
      [|exists copts; repeat split; [exact Hc | apply incl_tl, incl_refl]].
    unfold dict_mem in Hmem. unfold dict_item.
    destruct (dict_get copts k) as [w|] eqn:Hw; [|discriminate].
    destruct (counts_ok_get mc copts k w Hc Hw) as [K ->]; [rewrite <- Hsame; reflexivity|].
    specialize (Hv eq_refl). destruct v; try discriminate.
    cbn [bind py_iadd]. eexists. repeat split.
    - apply counts_ok_set; [exact Hc | reflexivity].
    - apply keys_set_incl. }
  destruct H1 as [c1 [-> [Hc1 Hk1]]]. cbn [bind].
  eexists. split; [reflexivity|].
  destruct (negb (dict_mem k c1)); [|split; assumption].
  split.
  - apply counts_ok_set; [exact Hc1|]. rewrite <- Hsame. exact Hv.
  - intros s Hs. destruct (keys_set_incl c1 k v s Hs) as [<-|Hin];
      [left; reflexivity | exact (Hk1 s Hin)].
Qed.

Lemma finalise_items_returns (m mc : Mode) (items : dict Val) :
  counts_ok m items = true ->
  (forall k, In k (keys items) -> global_match m k <> None ->
             counted m k = counted mc k) ->
  forall copts, counts_ok mc copts = true ->
    exists copts', finalise_items m items copts = Ret copts'
                   /\ counts_ok mc copts' = true
                   /\ incl (keys copts') (keys items ++ keys copts).
Proof.
  induction items as [|[k v] r IH]; intros Hitems Hsame copts Hc.
  - exists copts. repeat split; [exact Hc | apply incl_refl].
  - unfold counts_ok in Hitems. cbn [forallb fst snd] in Hitems.
    apply andb_prop in Hitems. destruct Hitems as [Hkv Hr].
    destruct (finalise_item_returns m mc copts k v Hc) as (c1 & E1 & Hc1 & Hk1).
    { intros Hck. rewrite Hck in Hkv. exact Hkv. }
    { apply Hsame. left; reflexivity. }
    destruct (IH Hr (fun k' Hin => Hsame k' (or_intror Hin)) c1 Hc1)
      as (c2 & E2 & Hc2 & Hk2).
    exists c2. cbn [finalise_items]. rewrite E1. cbn [bind].
    repeat split; [exact E2 | exact Hc2 |].
    intros s Hs. cbn [keys map fst app].
    apply Hk2, in_app_or in Hs. destruct Hs as [Hs|Hs].
    + right. apply in_or_app. left. exact Hs.
    + destruct (Hk1 s Hs) as [<-|Hin]; [left; reflexivity|].
      right. apply in_or_app. right. exact Hin.
Qed.

Lemma finalise_from_returns :
  forall n ui inherited opts, nesting ui = n ->
    chain_ok inherited ui = true ->
    counts_ok (_mode ui) opts = true ->
    incl (keys opts) (inherited ++ keys (_options ui)) ->
    exists ui', finalise_from ui opts = Ret ui'.
Proof.
  induction n as [|n IH]; intros [o ops nm m ch] inherited opts Hn Hok Hopts Hincl;
    cbn [nesting _child] in Hn; destruct ch as [c|]; try discriminate;
    cbn [finalise_from _child _mode _operands _name _options] in *.
  - eexists; reflexivity.
  - cbn [chain_ok _child _mode _options] in Hok.
    apply andb_prop in Hok. destruct Hok as [_ Hok].
    apply andb_prop in Hok. destruct Hok as [Hinh Hc].
    assert (Hc' := Hc). destruct c as [co cops cn cm cch] eqn:Ec.
    cbn [chain_ok _mode _options] in Hc'.
    apply andb_prop in Hc'. destruct Hc' as [Hco _]. rewrite <- Ec in *.
    destruct (finalise_items_returns m cm opts Hopts) with (copts := co)
      as (copts & E & Hcopts & Hkeys).
    { intros k Hin Hg. unfold inherits in Hinh. rewrite forallb_forall in Hinh.
      specialize (Hinh k (Hincl k Hin)). subst c. cbn [_mode] in Hinh.
      destruct (global_match m k); [|contradiction].
      apply Bool.eqb_prop. exact Hinh. }
    { exact Hco. }
    subst c. cbn [_options _mode] in *. rewrite E. cbn [bind].
    destruct (IH (mkUI co cops cn cm cch) (inherited ++ keys o) copts) as [c' Hc'].
    + injection Hn as Hn. exact Hn.
    + exact Hc.
    + exact Hcopts.
    + cbn [_options]. intros s Hs. apply Hkeys, in_app_or in Hs.
      apply in_or_app. destruct Hs as [Hs|Hs]; [left; exact (Hincl s Hs) | right; exact Hs].
    + rewrite Hc'. eexists; reflexivity.
Qed.

(** On a chain whose counts are integers and whose modes agree on the
    counted global options, [finalise] returns. *)
Lemma finalise_returns (ui : ParsedUI) :
  chain_ok [] ui = true -> exists ui', finalise ui = Ret ui'.
Proof.
  intros Hok. unfold finalise.
  apply (finalise_from_returns (nesting ui) ui [] (_options ui) eq_refl Hok).
  - destruct ui as [o ops nm m ch]. cbn [chain_ok _mode _options] in *.
    apply andb_prop in Hok. destruct Hok as [H _]. exact H.
  - apply incl_refl.
Qed.

(** C3: an option of global scope (the child's mode knows it as the
    parent's mode does) with an entry in the parent's options map and none
    in the child's: once [finalise] has run, the child holds the parent's
    value and [get] answers on the child what it answers on the parent.
    On a well-shaped chain [finalise] does run to its end. *)
Theorem finalise_copies_global_option (p c : ParsedUI) (k : string)
  (mt : Opt) (v : Val) :
  _child p = Some c -> nodup_keys (_options p) = true ->
  global_match (_mode p) k = Some mt ->
  dict_get (_options p) k = Some v -> dict_get (_options c) k = None ->
  getopt (_mode c) k = getopt (_mode p) k ->
  (chain_ok [] p = true -> exists p', finalise p = Ret p')
  /\ forall p', finalise p = Ret p' ->
      exists c', _child p' = Some c'
                 /\ dict_get (_options c') k = Some v
                 /\ forall tuplise, get c' k tuplise = get p' k tuplise
                                    /\ get p' k tuplise = get p k tuplise.
Proof.
  intros Hc Hnd Hg Hv Hnone Hsame. split; [apply finalise_returns|].
  intros p' Hfin. unfold finalise in Hfin.
  destruct (finalise_from_inv _ _ _ Hfin) as (Ho & Hm & Hch). rewrite Hc in Hch.
  destruct Hch as (copts & c' & Hitems & Hrec & Hc').
  destruct (finalise_from_inv _ _ _ Hrec) as (Ho' & Hm' & _).
  destruct (finalise_items_reach _ k v _ Hnd Hv _ _ Hitems) as (c0 & c1 & E0 & E1 & E2).
  assert (Hentry : dict_get copts k = Some v).
  { rewrite E2. rewrite Hnone in E0. unfold finalise_item in E1. rewrite Hg in E1.
    unfold dict_mem in E1. rewrite E0 in E1. cbn [andb bind negb] in E1.
    rewrite E0 in E1. cbn [negb] in E1. injection E1 as <-.
    apply dict_get_set_same. }
  exists c'. split; [exact Hc'|]. split; [rewrite Ho'; exact Hentry|].
  intros tuplise. unfold get, dict_item.
  rewrite Hm', Hm, Ho', Ho, Hsame, Hentry, Hv. split; reflexivity.
Qed.

(** C4: a global, zero-arity, repeatable option counted [M] times at the
    parent and [K] times at the child: once [finalise] has run, the
    child's count is [M + K].  On a well-shaped chain [finalise] does run
    to its end. *)
Theorem finalise_adds_counts (p c : ParsedUI) (k : string) (mt : Opt) (M K : Z) :
  _child p = Some c -> nodup_keys (_options p) = true ->
  global_match (_mode p) k = Some mt ->
  isplural mt = true -> oparams mt = [] ->
  dict_get (_options p) k = Some (VInt M) ->
  dict_get (_options c) k = Some (VInt K) ->
  (chain_ok [] p = true -> exists p', finalise p = Ret p')
  /\ forall p', finalise p = Ret p' ->
      exists c', _child p' = Some c'
                 /\ dict_get (_options c') k = Some (VInt (M + K)).
Proof.
  intros Hc Hnd Hg Hpl Hpar HM HK. split; [apply finalise_returns|].
  intros p' Hfin. unfold finalise in Hfin.
  destruct (finalise_from_inv _ _ _ Hfin) as (_ & _ & Hch). rewrite Hc in Hch.
  destruct Hch as (copts & c' & Hitems & Hrec & Hc').
  destruct (finalise_from_inv _ _ _ Hrec) as (Ho' & _ & _).
  destruct (finalise_items_reach _ k _ _ Hnd HM _ _ Hitems) as (c0 & c1 & E0 & E1 & E2).
  exists c'. split; [exact Hc'|]. rewrite Ho', E2.
  rewrite HK in E0. unfold finalise_item in E1. rewrite Hg, Hpl, Hpar in E1.
  unfold dict_mem, dict_item in E1. rewrite E0 in E1. cbn [andb null bind py_iadd] in E1.
  rewrite dict_get_set_same in E1. cbn [negb] in E1. injection E1 as <-.
  rewrite dict_get_set_same. f_equal. f_equal. lia.
Qed.

Lemma finalise_copies_global_option_witness :
  (chain_ok [] Sample.ui_parent' = true ->
   exists p', finalise Sample.ui_parent' = Ret p')
  /\ forall p', finalise Sample.ui_parent' = Ret p' ->
      exists c', _child p' = Some c'
                 /\ dict_get (_options c') "-v" = Some (VInt 3)
                 /\ forall tuplise,
                     get c' "-v" tuplise = get p' "-v" tuplise
                     /\ get p' "-v" tuplise = get Sample.ui_parent' "-v" tuplise.
Proof.
  apply (finalise_copies_global_option Sample.ui_parent' Sample.ui_bare_child "-v"
           (Sample.opt_of (Sample.mkDecl "-v" (Some "--verbose") [] true)) (VInt 3));
    reflexivity.
Defined.

Lemma finalise_adds_counts_witness :
  (chain_ok [] Sample.ui_parent = true ->
   exists p', finalise Sample.ui_parent = Ret p')
  /\ forall p', finalise Sample.ui_parent = Ret p' ->
      exists c', _child p' = Some c'
                 /\ dict_get (_options c') "-v" = Some (VInt (3 + 2)).
Proof.
  apply (finalise_adds_counts Sample.ui_parent Sample.ui_child "-v"
           (Sample.opt_of (Sample.mkDecl "-v" (Some "--verbose") [] true)) 3 2);
    reflexivity.
Defined.

(** On the sample chains the run does come to its end, with the count
    [5] and the copied count [3] in the child. *)
Example finalise_sample_counts :
  chain_ok [] Sample.ui_parent = true
  /\ chain_ok [] Sample.ui_parent' = true
  /\ option_map _options (_child (match finalise Sample.ui_parent with
                                   | Ret p' => p' | _ => Sample.ui_parent end))
     = Some [("-v", VInt 5); ("--verbose", VInt 5)]
  /\ option_map _options (_child (match finalise Sample.ui_parent' with
                                   | Ret p' => p' | _ => Sample.ui_parent' end))
     = Some [("-v", VInt 3); ("--verbose", VInt 3)].
Proof. repeat split. Qed.

(** ** The parser *)

Section ParserProperties.

Variable lookslikeopt : string -> bool.
Variable default_typehandlers : registry.

Local Abbreviation getinput := (_getinput lookslikeopt).
Local Abbreviation heuralgo := (_heuralgo lookslikeopt).
Local Abbreviation getheuroperands := (_getheuroperands lookslikeopt).
Local Abbreviation scan := (parse_loop lookslikeopt).
Local Abbreviation parse_at := (parse_named lookslikeopt default_typehandlers).
Local Abbreviation run := (parse lookslikeopt default_typehandlers).

(** Storing an occurrence under a name that has no entry yet succeeds,
    whatever the shape of the option. *)
Lemma store_fresh (m : Mode) (d : dict Val) (k : string) (args : option (list Val))
  (o : Opt) :
  getopt m k = Some o -> dict_mem k d = false ->
  exists v, store m d (k, args) = Ret (dict_set d k v).
Proof.
  intros Hget Hmem; unfold store; rewrite Hget, Hmem; simpl.
  destruct (isplural o); simpl.
  - destruct (null (oparams o)); simpl;
      rewrite dict_item_set_same; simpl; rewrite dict_set_twice;
      eexists; reflexivity.
  - destruct (null (oparams o)); simpl; eexists; reflexivity.
Qed.

(** A flag and, when the mode names another spelling for it, that spelling
    are stored into the empty map without error. *)
Lemma store_flag_pair (m : Mode) (flag : string) (o o' : Opt) :
  getopt m flag = Some o -> getopt m (alias m flag) = Some o' ->
  exists d,
    store_all m []
      (([] ++ [(flag, None)]) ++
       (if negb (alias m flag =? flag) then [(alias m flag, None)] else [])) = Ret d.
Proof.
  intros Ho Ho'.
  destruct (store_fresh m [] flag None o Ho eq_refl) as [v Hv].
  simpl app at 1. cbn [store_all app]. rewrite Hv; cbn [bind].
  destruct (alias m flag =? flag) eqn:E; cbn [negb store_all].
  - eexists; reflexivity.
  - assert (Hmem : dict_mem (alias m flag) (dict_set [] flag v) = false).
    { rewrite dict_mem_set_other; [reflexivity|].
      intros Heq. rewrite <- Heq, String.eqb_refl in E. discriminate. }
    destruct (store_fresh m _ (alias m flag) None o' Ho' Hmem) as [v' Hv'].
    rewrite Hv'; cbn [bind]. eexists; reflexivity.
Qed.

(** What [_getinput] returns when a flag is followed by a token that does
    not look like an option: the window is the flag alone. *)
Lemma getinput_flag_then_plain (m : Mode) (flag next : string) (rest : list string) :
  lookslikeopt flag = true -> (flag =? "--") = false -> params m flag = [] ->
  lookslikeopt next = false ->
  getinput m (flag :: next :: rest) = Ret [flag].
Proof.
  intros Hl Hs Hp Hn. unfold _getinput.
  cbn [length getinput_loop Nat.ltb Nat.leb nth Nat.eqb Nat.sub].
  rewrite Hs, Hl. cbn [negb andb Nat.add].
  cbn [getinput_loop length Nat.ltb Nat.leb nth Nat.sub Nat.eqb].
  destruct (next =? "--"); [reflexivity|].
  rewrite Hn, Hl, Hp. reflexivity.
Qed.

(** The window of [flag -- ...] is the flag alone. *)
Lemma getinput_flag_then_separator (m : Mode) (flag : string) (rest : list string) :
  lookslikeopt flag = true -> (flag =? "--") = false ->
  getinput m (flag :: "--" :: rest) = Ret [flag].
Proof.
  intros Hl Hs. unfold _getinput.
  cbn [length getinput_loop Nat.ltb Nat.leb nth Nat.eqb Nat.sub].
  rewrite Hs, Hl. cbn [negb andb Nat.add].
  cbn [getinput_loop length Nat.ltb Nat.leb nth Nat.sub Nat.eqb].
  reflexivity.
Qed.

(** The option scan over a window made of one flag. *)
Lemma scan_single_flag (th : registry) (m : Mode) (flag : string) :
  lookslikeopt flag = true -> accepts m flag = true -> params m flag = [] ->
  scan (S (length [flag])) th m [flag] 0%nat [] =
  Ret (([] ++ [(flag, None)]) ++
       (if negb (alias m flag =? flag) then [(alias m flag, None)] else [])).
Proof.
  intros Hl Ha Hp.
  cbn [length parse_loop Nat.ltb Nat.leb nth].
  rewrite Hl, Ha, Hp. cbn [null andb Nat.add].
  destruct (negb (alias m flag =? flag)); cbn [Nat.ltb Nat.leb]; rewrite ?app_nil_r; reflexivity.
Qed.

(** C6: when [flag] is a declared zero-arity option of the mode, parsing
    [flag -- ops] yields exactly the operands [ops] and no child result,
    whatever the tokens [ops] are (the names of child modes included). *)
Theorem separator_keeps_operands (th : registry) (m : Mode) (flag : string)
  (ops : list string) (o o' : Opt) :
  lookslikeopt flag = true -> (flag =? "--") = false ->
  accepts m flag = true -> params m flag = [] ->
  getopt m flag = Some o -> getopt m (alias m flag) = Some o' ->
  exists ui, run th m (flag :: "--" :: ops) = Ret ui
             /\ _operands ui = ops /\ _child ui = None.
Proof.
  intros Hl Hs Ha Hp Ho Ho'.
  destruct (store_flag_pair m flag o o' Ho Ho') as [d Hd].
  unfold parse. generalize (length (flag :: "--" :: ops)); intros depth.
  destruct depth; cbn [parse_named];
    unfold _getheuroperands;
    rewrite (getinput_flag_then_separator m flag ops Hl Hs); cbn [bind];
    rewrite (scan_single_flag th m flag Hl Ha Hp); cbn [bind];
    rewrite Hd; cbn [bind length skipn];
    rewrite String.eqb_refl; cbn [negb tl bind];
    eexists; (split; [reflexivity | split; reflexivity]).
Qed.

(** Unfolding [parse_named] once, whatever the depth is. *)
Lemma parse_named_unfold (depth : nat) (th : registry) (name : string) (m : Mode)
  (args : list string) :
  parse_at depth th name m args =
  (input <- getinput m args ;;
   options <- scan (S (length input)) th m input 0%nat [] ;;
   parsed_options <- store_all m [] options ;;
   r <- getheuroperands m args ;;
   let '(operands, nested) := r in
   match nested with
   | [] => Ret (mkUI parsed_options operands name m None)
   | name' :: nested' =>
       mode <- dict_item (_modes m) name' ;;
       match depth with
       | O => OutOfFuel
       | S depth' =>
           ui <- parse_at depth' default_typehandlers name' mode nested' ;;
           Ret (mkUI parsed_options operands name m (Some ui))
       end
   end).
Proof. destruct depth; reflexivity. Qed.

(** *** What follows the input window *)

Lemma getinput_loop_stop (m : Mode) (args : list string) :
  forall fuel i index z,
    index = (Z.of_nat i - 1)%Z ->
    getinput_loop lookslikeopt fuel m args i index = Ret z ->
    (-1 <= z)%Z
    /\ ((Z.to_nat (z + 1) < length args)%nat ->
        (nth (Z.to_nat (z + 1)) args "" =? "--") = true
        \/ lookslikeopt (nth (Z.to_nat (z + 1)) args "") = false).
Proof.
  induction fuel as [|fuel IH]; intros i index z Hidx H; [discriminate|].
  cbn [getinput_loop] in H.
  assert (Hn : Z.to_nat (index + 1) = i) by lia.
  destruct (i <? length args)%nat eqn:Hi.
  2:{ injection H as <-. apply Nat.ltb_ge in Hi. split; [lia|]. rewrite Hn. lia. }
  destruct (nth i args "" =? "--") eqn:C0.
  { injection H as <-. split; [lia|]. rewrite Hn. auto. }
  destruct ((i =? 0)%nat && negb (lookslikeopt (nth i args ""))) eqn:C1.
  { injection H as <-. split; [lia|]. rewrite Hn.
    apply andb_prop in C1. destruct C1 as [_ C1]. apply negb_true_iff in C1. auto. }
  destruct ((0 <? i)%nat && negb (lookslikeopt (nth i args ""))
            && negb (lookslikeopt (nth (i - 1) args ""))) eqn:C2.
  { injection H as <-. split; [lia|]. rewrite Hn.
    apply andb_prop in C2. destruct C2 as [C2 _].
    apply andb_prop in C2. destruct C2 as [_ C2]. apply negb_true_iff in C2. auto. }
  destruct ((0 <? i)%nat && negb (lookslikeopt (nth i args ""))
            && lookslikeopt (nth (i - 1) args "")
            && null (params m (nth (i - 1) args ""))) eqn:C3.
  { injection H as <-. split; [lia|]. rewrite Hn.
    apply andb_prop in C3. destruct C3 as [C3 _].
    apply andb_prop in C3. destruct C3 as [C3 _].
    apply andb_prop in C3. destruct C3 as [_ C3]. apply negb_true_iff in C3. auto. }
  eapply IH; [|exact H]. lia.
Qed.

(** Inside [parse], the slice handed to [_heuralgo] never begins with a
    token that looks like an option: the input window swallows every such
    token, and stops only at the separator or at a plain token. *)
Lemma window_is_followed_by_plain_token (m : Mode) (args input : list string)
  (t : string) (rest : list string) :
  getinput m args = Ret input -> skipn (length input) args = t :: rest ->
  (t =? "--") = false -> lookslikeopt t = false.
Proof.
  unfold _getinput. intros H Hskip Hsep.
  apply bind_ret_inv in H. destruct H as [z [Hz H]]. injection H as <-.
  destruct (getinput_loop_stop m args _ _ _ z eq_refl Hz) as [Hlo Hstop].
  assert (Hlen : length (if (0 <=? z)%Z then firstn (Z.to_nat (z + 1)) args else [])
                 = Nat.min (Z.to_nat (z + 1)) (length args)).
  { destruct (0 <=? z)%Z eqn:E.
    - apply length_firstn.
    - apply Z.leb_gt in E. replace (Z.to_nat (z + 1)) with 0%nat by lia. reflexivity. }
  rewrite Hlen in Hskip.
  assert (Hlt : (Z.to_nat (z + 1) < length args)%nat).
  { destruct (Nat.lt_ge_cases (Z.to_nat (z + 1)) (length args)) as [|Hge]; [assumption|].
    rewrite Nat.min_r in Hskip by exact Hge. rewrite skipn_all in Hskip. discriminate. }
  rewrite Nat.min_l in Hskip by lia.
  assert (Ht : nth (Z.to_nat (z + 1)) args "" = t).
  { rewrite <- (firstn_skipn (Z.to_nat (z + 1)) args) at 1.
    rewrite app_nth2 by (rewrite length_firstn; lia).
    rewrite length_firstn, Nat.min_l by lia. rewrite Nat.sub_diag, Hskip. reflexivity. }
  destruct (Hstop Hlt) as [Hs|Hl]; rewrite Ht in *; [congruence | exact Hl].
Qed.


(** C1 (as amended): for a mode with a zero-arity option [x] and a child
    mode accepting the option [y], the input [x f y], where [f] is a plain
    token naming no child mode, is split by retracting [f] from the
    operands: the operand list is empty and the nested input is [f y].
    Its first token is then looked up among the child modes, and the parse
    stops with a [KeyError] instead of producing a result. *)
Theorem retraction_hands_operand_to_child (th : registry) (m : Mode)
  (x f y : string) (o o' : Opt) :
  lookslikeopt x = true -> (x =? "--") = false ->
  accepts m x = true -> params m x = [] ->
  getopt m x = Some o -> getopt m (alias m x) = Some o' ->
  lookslikeopt f = false -> (f =? "--") = false -> hasmode m f = false ->
  lookslikeopt y = true -> hasmode m y = false ->
  _isAcceptedInChildModes m y = true ->
  getheuroperands m [x; f; y] = Ret ([], [f; y])
  /\ run th m [x; f; y] = Raise (KeyError f).
Proof.
  intros Hlx Hsx Hax Hpx Ho Ho' Hlf Hsf Hmf Hly Hmy Hay.
  assert (Hsplit : getheuroperands m [x; f; y] = Ret ([], [f; y])).
  { unfold _getheuroperands.
    rewrite (getinput_flag_then_plain m x f [y] Hlx Hsx Hpx Hlf); cbn [bind length skipn].
    rewrite Hsf; cbn [negb]. unfold _heuralgo.
    cbn [length heuralgo_loop Nat.ltb Nat.leb nth Nat.add].
    rewrite Hmf, Hlf; cbn [andb app].
    rewrite Hmy, Hly, Hay. reflexivity. }
  split; [exact Hsplit|].
  destruct (store_flag_pair m x o o' Ho Ho') as [d Hd].
  unfold parse. rewrite parse_named_unfold.
  rewrite (getinput_flag_then_plain m x f [y] Hlx Hsx Hpx Hlf); cbn [bind].
  rewrite (scan_single_flag th m x Hlx Hax Hpx); cbn [bind].
  rewrite Hd; cbn [bind]. rewrite Hsplit; cbn [bind].
  unfold hasmode in Hmf. unfold dict_item.
  rewrite (dict_mem_false_get _ _ Hmf). reflexivity.
Qed.

(** *** Windows made of option-looking tokens *)

Lemma is_flag_inv (m : Mode) (z : string) :
  is_flag lookslikeopt m z = true ->
  lookslikeopt z = true /\ (z =? "--") = false /\ accepts m z = true
  /\ null (params m z) = true.
Proof.
  unfold is_flag; intros H.
  apply andb_prop in H; destruct H as [H H4].
  apply andb_prop in H; destruct H as [H H3].
  apply andb_prop in H; destruct H as [H1 H2].
  apply negb_true_iff in H2. auto.
Qed.

(** Over tokens that all look like options and are not the separator, the
    loop of [_getinput] runs to the end of the list. *)
Lemma getinput_loop_options (m : Mode) (args : list string) :
  (forall j, (j < length args)%nat ->
             lookslikeopt (nth j args "") = true /\ (nth j args "" =? "--") = false) ->
  forall fuel i index,
    (length args - i < fuel)%nat ->
    getinput_loop lookslikeopt fuel m args i index =
    Ret (if (i <? length args)%nat then (Z.of_nat (length args) - 1)%Z else index).
Proof.
  intros Hall; induction fuel as [|fuel IH]; intros i index Hfuel; [lia|].
  cbn [getinput_loop].
  destruct (i <? length args)%nat eqn:Hi; [|reflexivity].
  apply Nat.ltb_lt in Hi.
  destruct (Hall i Hi) as [Hl Hs]. rewrite Hs, Hl.
  cbn [negb andb]. rewrite !andb_false_r. cbn [andb].
  rewrite IH by lia.
  destruct (i + 1 <? length args)%nat eqn:Hi'; [reflexivity|].
  apply Nat.ltb_ge in Hi'. f_equal. lia.
Qed.

Lemma getinput_options (m : Mode) (args : list string) :
  (forall j, (j < length args)%nat ->
             lookslikeopt (nth j args "") = true /\ (nth j args "" =? "--") = false) ->
  getinput m args = Ret args.
Proof.
  intros Hall. unfold _getinput.
  rewrite (getinput_loop_options m args Hall) by lia. cbn [bind].
  destruct args as [|a r]; [reflexivity|].
  replace (0 <? length (a :: r))%nat with true by (symmetry; apply Nat.ltb_lt; simpl; lia).
  replace (0 <=? Z.of_nat (length (a :: r)) - 1)%Z with true
    by (symmetry; apply Z.leb_le; simpl length; lia).
  replace (Z.to_nat (Z.of_nat (length (a :: r)) - 1 + 1)) with (length (a :: r)) by lia.
  rewrite firstn_all. reflexivity.
Qed.


Lemma getinput_flags (m : Mode) (zs : list string) :
  forallb (is_flag lookslikeopt m) zs = true -> getinput m zs = Ret zs.
Proof.
  intros Hzs. apply getinput_options. intros j Hj.
  rewrite forallb_forall in Hzs.
  destruct (is_flag_inv m _ (Hzs _ (nth_In zs "" Hj))) as (H1 & H2 & _). auto.
Qed.

(** The option scan walks through a run of flags, recording each of them
    and its other spelling. *)
Lemma scan_flags (th : registry) (m : Mode) (zs : list string) :
  forallb (is_flag lookslikeopt m) zs = true ->
  forall pre rest options fuel,
    scan (length zs + fuel)%nat th m (pre ++ zs ++ rest) (length pre) options =
    scan fuel th m (pre ++ zs ++ rest) (length pre + length zs)%nat
         (options ++ flag_occurrences m zs).
Proof.
  induction zs as [|z zs IH]; intros Hzs pre rest options fuel.
  - cbn [length Nat.add flag_occurrences flat_map].
    rewrite Nat.add_0_r, app_nil_r. reflexivity.
  - cbn [forallb] in Hzs. apply andb_prop in Hzs. destruct Hzs as [Hz Hzs].
    destruct (is_flag_inv m z Hz) as (Hl & Hs & Ha & Hp).
    cbn [length Nat.add parse_loop].
    replace (length pre <? length (pre ++ (z :: zs) ++ rest))%nat with true
      by (symmetry; apply Nat.ltb_lt; rewrite length_app; simpl; lia).
    change ((z :: zs) ++ rest) with (z :: zs ++ rest).
    rewrite nth_middle, Hl, Ha, Hp. cbn [andb].
    replace (pre ++ z :: zs ++ rest) with ((pre ++ [z]) ++ zs ++ rest)
      by (rewrite <- app_assoc; reflexivity).
    replace (length pre + 1)%nat with (length (pre ++ [z]))
      by (rewrite length_app; reflexivity).
    rewrite (IH Hzs). rewrite length_app. cbn [length flag_occurrences flat_map].
    replace (length pre + 1 + length zs)%nat with (length pre + S (length zs))%nat by lia.
    f_equal.
    destruct (negb (alias m z =? z)); cbn [app]; rewrite <- ?app_assoc; reflexivity.
Qed.




(** *** Termination *)

Lemma finishes_bind {A B : Type} (x : outcome A) (k : A -> outcome B) :
  finishes x -> (forall a, x = Ret a -> finishes (k a)) -> finishes (bind x k).
Proof.
  unfold finishes. destruct x as [a| |]; simpl; intros Hx Hk.
  - apply Hk; reflexivity.
  - discriminate.
  - contradiction.
Qed.

Lemma getinput_loop_returns (m : Mode) (args : list string) :
  forall fuel i index, (length args - i < fuel)%nat ->
    exists z, getinput_loop lookslikeopt fuel m args i index = Ret z.
Proof.
  induction fuel as [|fuel IH]; intros i index Hfuel; [lia|].
  cbn [getinput_loop].
  destruct (i <? length args)%nat eqn:Hi; [|eexists; reflexivity].
  apply Nat.ltb_lt in Hi.
  repeat match goal with
         | |- context [if ?b then _ else _] => destruct b
         end; try (eexists; reflexivity); apply IH; lia.
Qed.

Lemma getinput_returns (m : Mode) (args : list string) :
  exists input, getinput m args = Ret input /\ (length input <= length args)%nat.
Proof.
  unfold _getinput.
  destruct (getinput_loop_returns m args (S (length args)) 0%nat (-1)%Z) as [z Hz]; [lia|].
  rewrite Hz. cbn [bind]. eexists; split; [reflexivity|].
  destruct (0 <=? z)%Z; [rewrite length_firstn|simpl]; lia.
Qed.

Lemma heuralgo_loop_finishes (m : Mode) (opers : list string) :
  forall fuel i operands, (length opers - i < fuel)%nat ->
    finishes (heuralgo_loop lookslikeopt fuel m opers i operands).
Proof.
  induction fuel as [|fuel IH]; intros i operands Hfuel; [lia|].
  cbn [heuralgo_loop].
  destruct (i <? length opers)%nat eqn:Hi; [|discriminate].
  apply Nat.ltb_lt in Hi.
  destruct (hasmode m (nth i opers "")); [discriminate|].
  destruct (lookslikeopt (nth i opers "") && _isAcceptedInChildModes m (nth i opers "")).
  - destruct operands; discriminate.
  - apply IH; lia.
Qed.

Lemma heuralgo_spec (m : Mode) (opers : list string) :
  finishes (heuralgo m opers)
  /\ forall operands nested, heuralgo m opers = Ret (operands, nested) ->
                             (length nested <= length opers)%nat.
Proof.
  unfold _heuralgo.
  pose proof (heuralgo_loop_finishes m opers (S (length opers)) 0%nat []) as Hf.
  destruct (heuralgo_loop lookslikeopt (S (length opers)) m opers 0 []) as [[ops i]| |];
    cbn [bind].
  - split; [discriminate|].
    intros operands nested H. injection H as _ <-. rewrite length_skipn; lia.
  - split; [discriminate|]. intros ? ? H; discriminate.
  - exfalso. apply Hf; [lia | reflexivity].
Qed.

Lemma getheuroperands_spec (m : Mode) (args : list string) :
  finishes (getheuroperands m args)
  /\ forall operands nested, getheuroperands m args = Ret (operands, nested) ->
                             (length nested <= length args)%nat.
Proof.
  unfold _getheuroperands.
  destruct (getinput_returns m args) as [input [Hin Hlen]]. rewrite Hin. cbn [bind].
  set (opers := skipn (length input) args).
  assert (Hop : (length opers <= length args)%nat)
    by (unfold opers; rewrite length_skipn; lia).
  destruct (match opers with o :: _ => o =? "--" | [] => false end); cbn [negb].
  - split; [discriminate|]. intros ? ? H; injection H as _ <-; simpl; lia.
  - destruct (heuralgo_spec m opers) as [Hf Hb]. split; [exact Hf|].
    intros operands nested H. specialize (Hb _ _ H). lia.
Qed.

Lemma coerce_finishes (th : registry) (callbacks : list Param) :
  forall raw, finishes (coerce th callbacks raw).
Proof.
  induction callbacks as [|cb r IH]; intros raw; cbn [coerce]; [discriminate|].
  apply finishes_bind.
  - destruct cb; cbn [resolve]; [|discriminate].
    unfold dict_item; destruct (dict_get th name); discriminate.
  - intros h _. destruct raw as [|x raw]; [discriminate|].
    apply finishes_bind.
    + unfold call; destruct (h x); discriminate.
    + intros v _. apply finishes_bind; [apply IH|]. intros; discriminate.
Qed.

Lemma scan_finishes (th : registry) (m : Mode) (input : list string) :
  forall fuel i options, (length input - i < fuel)%nat ->
    finishes (scan fuel th m input i options).
Proof.
  induction fuel as [|fuel IH]; intros i options Hfuel; [lia|].
  cbn [parse_loop].
  destruct (i <? length input)%nat eqn:Hi; [|discriminate].
  apply Nat.ltb_lt in Hi.
  destruct (lookslikeopt (nth i input "") && accepts m (nth i input "")
            && null (params m (nth i input ""))).
  - apply IH; lia.
  - destruct (lookslikeopt (nth i input "") && accepts m (nth i input "")
              && negb (null (params m (nth i input "")))); [|discriminate].
    apply finishes_bind; [apply coerce_finishes|].
    intros ps _. apply IH; lia.
Qed.

Lemma store_finishes (m : Mode) (d : dict Val) (oc : occurrence) :
  finishes (store m d oc).
Proof.
  destruct oc as [opt args]. unfold store.
  destruct (getopt m opt) as [o|]; [|discriminate].
  destruct (isplural o && negb (null (oparams o))).
  - apply finishes_bind; [unfold dict_item; destruct (dict_get _ opt); discriminate|].
    intros w _. apply finishes_bind; [destruct w; discriminate|]. intros; discriminate.
  - destruct (isplural o && null (oparams o)); [|discriminate].
    apply finishes_bind; [unfold dict_item; destruct (dict_get _ opt); discriminate|].
    intros w _. apply finishes_bind; [|intros; discriminate].
    destruct w; discriminate.
Qed.

Lemma store_all_finishes (m : Mode) (ocs : list occurrence) :
  forall d, finishes (store_all m d ocs).
Proof.
  induction ocs as [|oc r IH]; intros d; cbn [store_all]; [discriminate|].
  apply finishes_bind; [apply store_finishes|]. intros d' _. apply IH.
Qed.

(** With room for as many nested calls as there are tokens, the parse
    comes to an end. *)
Lemma parse_named_finishes :
  forall depth th name m args, (length args <= depth)%nat ->
    finishes (parse_at depth th name m args).
Proof.
  induction depth as [|depth IH]; intros th name m args Hlen;
    rewrite parse_named_unfold.
  - destruct (getinput_returns m args) as [input [Hin _]]. rewrite Hin. cbn [bind].
    apply finishes_bind; [apply scan_finishes; lia|]. intros options _.
    apply finishes_bind; [apply store_all_finishes|]. intros d _.
    destruct (getheuroperands_spec m args) as [Hf Hb].
    apply finishes_bind; [exact Hf|]. intros [operands nested] Hr.
    specialize (Hb _ _ Hr).
    destruct nested as [|name' nested']; [discriminate|]. simpl in Hb; lia.
  - destruct (getinput_returns m args) as [input [Hin _]]. rewrite Hin. cbn [bind].
    apply finishes_bind; [apply scan_finishes; lia|]. intros options _.
    apply finishes_bind; [apply store_all_finishes|]. intros d _.
    destruct (getheuroperands_spec m args) as [Hf Hb].
    apply finishes_bind; [exact Hf|]. intros [operands nested] Hr.
    specialize (Hb _ _ Hr).
    destruct nested as [|name' nested']; [discriminate|]. simpl in Hb.
    apply finishes_bind; [unfold dict_item; destruct (dict_get _ name'); discriminate|].
    intros mode _.
    apply finishes_bind; [apply IH; lia|]. intros; discriminate.
Qed.

(** Room beyond the number of tokens changes nothing. *)
Lemma parse_named_depth :
  forall d1 d2 th name m args, (length args <= d1)%nat -> (length args <= d2)%nat ->
    parse_at d1 th name m args = parse_at d2 th name m args.
Proof.
  induction d1 as [|d1 IH]; intros d2 th name m args H1 H2;
    rewrite (parse_named_unfold 0) || rewrite (parse_named_unfold (S d1));
    rewrite (parse_named_unfold d2);
    destruct (getinput m args) as [input| |]; cbn [bind]; try reflexivity;
    destruct (scan (S (length input)) th m input 0 []) as [options| |];
    cbn [bind]; try reflexivity;
    destruct (store_all m [] options) as [d| |]; cbn [bind]; try reflexivity;
    destruct (getheuroperands_spec m args) as [_ Hb];
    destruct (getheuroperands m args) as [[operands nested]| |];
    cbn [bind]; try reflexivity;
    specialize (Hb _ _ eq_refl);
    destruct nested as [|name' nested']; try reflexivity; simpl in Hb;
    destruct (dict_item (_modes m) name') as [mode| |]; cbn [bind]; try reflexivity.
  - lia.
  - destruct d2 as [|d2]; [lia|].
    rewrite (IH d2) by lia. reflexivity.
Qed.

(** A result has at most as many nested results as the input has tokens. *)
Lemma parse_named_nesting :
  forall depth th name m args ui,
    parse_at depth th name m args = Ret ui -> (nesting ui <= length args)%nat.
Proof.
  induction depth as [|depth IH]; intros th name m args ui;
    rewrite parse_named_unfold;
    destruct (getinput m args) as [input| |]; cbn [bind]; try discriminate;
    destruct (scan (S (length input)) th m input 0 []) as [options| |];
    cbn [bind]; try discriminate;
    destruct (store_all m [] options) as [d| |]; cbn [bind]; try discriminate;
    destruct (getheuroperands_spec m args) as [_ Hb];
    destruct (getheuroperands m args) as [[operands nested]| |];
    cbn [bind]; try discriminate;
    specialize (Hb _ _ eq_refl);
    (destruct nested as [|name' nested'];
     [intros H; injection H as <-; simpl; lia|]); simpl in Hb;
    destruct (dict_item (_modes m) name') as [mode| |]; cbn [bind]; try discriminate.
  destruct (parse_at depth default_typehandlers name' mode nested') as [c| |] eqn:Hc;
    cbn [bind]; try discriminate.
  intros H; injection H as <-. cbn [nesting _child].
  specialize (IH _ _ _ _ _ Hc). lia.
Qed.

(** C9: for every token list and every mode, the parse terminates: it
    returns a result chain or stops with an exception.  The nested calls
    never go deeper than the number of tokens: that much room is enough,
    more room changes nothing, and a returned chain has at most that many
    nested results. *)
Theorem parse_terminates (th : registry) (m : Mode) (args : list string) (extra : nat) :
  ((exists ui, run th m args = Ret ui /\ (nesting ui <= length args)%nat)
   \/ (exists e, run th m args = Raise e))
  /\ parse_at (length args + extra) th "" m args = run th m args.
Proof.
  split.
  - pose proof (parse_named_finishes (length args) th "" m args (le_n _)) as Hf.
    unfold parse. unfold finishes in Hf.
    destruct (parse_at (length args) th "" m args) as [ui|e|] eqn:E.
    + left. exists ui. split; [reflexivity|].
      exact (parse_named_nesting _ _ _ _ _ _ E).
    + right. exists e. reflexivity.
    + contradiction.
  - unfold parse. apply parse_named_depth; lia.
Qed.

(** *** The two spellings of an option *)

Lemma named_app (k : string) (l1 l2 : list occurrence) :
  named k (l1 ++ l2) = named k l1 ++ named k l2.
Proof. unfold named. rewrite filter_app, map_app. reflexivity. Qed.

Lemma store_other (m : Mode) (d d' : dict Val) (k' k : string)
  (args : option (list Val)) :
  k' <> k -> store m d (k', args) = Ret d' -> dict_get d' k = dict_get d k.
Proof.
  intros Hne H. unfold store in H.
  destruct (getopt m k') as [o|]; [|discriminate].
  destruct (isplural o && negb (null (oparams o))).
  - apply bind_ret_inv in H. destruct H as [w [_ H]].
    apply bind_ret_inv in H. destruct H as [w' [_ H]]. injection H as <-.
    rewrite dict_get_set_other by exact Hne.
    destruct (negb (dict_mem k' d)); [apply dict_get_set_other; exact Hne | reflexivity].
  - destruct (isplural o && null (oparams o)).
    + apply bind_ret_inv in H. destruct H as [w [_ H]].
      apply bind_ret_inv in H. destruct H as [w' [_ H]]. injection H as <-.
      rewrite dict_get_set_other by exact Hne.
      destruct (negb (dict_mem k' d)); [apply dict_get_set_other; exact Hne | reflexivity].
    + injection H as <-. apply dict_get_set_other; exact Hne.
Qed.

Lemma store_same (m : Mode) (d d' : dict Val) (k : string) (o : Opt)
  (args : option (list Val)) :
  getopt m k = Some o -> store m d (k, args) = Ret d' ->
  exists v, key_step o (dict_get d k) args = Ret v /\ dict_get d' k = Some v.
Proof.
  intros Hget H. unfold store in H. rewrite Hget in H. unfold key_step.
  assert (Hitem : forall v0,
            dict_item (if negb (dict_mem k d) then dict_set d k v0 else d) k
            = Ret (match dict_get d k with Some w => w | None => v0 end)).
  { intros v0. unfold dict_mem, dict_item.
    destruct (dict_get d k) as [w|] eqn:E; cbn [negb].
    - rewrite E; reflexivity.
    - rewrite dict_get_set_same; reflexivity. }
  destruct (isplural o && negb (null (oparams o))).
  - rewrite Hitem in H. cbn [bind] in H.
    apply bind_ret_inv in H. destruct H as [w' [Hw H]]. injection H as <-.
    exists w'. split; [exact Hw | apply dict_get_set_same].
  - destruct (isplural o && null (oparams o)).
    + rewrite Hitem in H. cbn [bind] in H.
      apply bind_ret_inv in H. destruct H as [w' [Hw H]]. injection H as <-.
      exists w'. split; [exact Hw | apply dict_get_set_same].
    + injection H as <-. eexists. split; [reflexivity | apply dict_get_set_same].
Qed.

(** The entry under a name is the fold of the arguments recorded under
    it. *)
Lemma store_all_key (m : Mode) (k : string) (o : Opt) (ocs : list occurrence) :
  getopt m k = Some o ->
  forall d d', store_all m d ocs = Ret d' ->
               key_fold o (dict_get d k) (named k ocs) = Ret (dict_get d' k).
Proof.
  intros Hget. induction ocs as [|[k' x] r IH]; intros d d' H.
  - injection H as <-. reflexivity.
  - cbn [store_all] in H. apply bind_ret_inv in H. destruct H as [d1 [H1 H2]].
    unfold named. cbn [filter fst]. destruct (k' =? k) eqn:E.
    + apply String.eqb_eq in E. subst k'.
      destruct (store_same _ _ _ _ _ _ Hget H1) as [v [Hv Hd1]].
      cbn [map snd key_fold]. rewrite Hv. cbn [bind]. rewrite <- Hd1.
      exact (IH _ _ H2).
    + apply String.eqb_neq in E.
      rewrite <- (store_other _ _ _ _ _ _ E H1). exact (IH _ _ H2).
Qed.


Section Spellings.

Variables (m : Mode) (a b : string) (o : Opt).
Hypothesis Hab : (a =? b) = false.
Hypothesis Halias_a : alias m a = b.
Hypothesis Halias_b : alias m b = a.
Hypothesis Hparams_a : params m a = oparams o.
Hypothesis Hparams_b : params m b = oparams o.



End Spellings.






Lemma getinput_incl (m : Mode) (args input : list string) :
  getinput m args = Ret input -> incl input args.
Proof.
  unfold _getinput. intros H. apply bind_ret_inv in H. destruct H as [z [_ H]].
  injection H as <-. intros s Hs.
  destruct (0 <=? z)%Z; [|contradiction].
  rewrite <- (firstn_skipn (Z.to_nat (z + 1)) args). apply in_or_app. left. exact Hs.
Qed.

(** A returned result holds what the scan recorded, stored in order. *)
Lemma parse_named_inv (depth : nat) (th : registry) (name : string) (m : Mode)
  (args : list string) (ui : ParsedUI) :
  parse_at depth th name m args = Ret ui ->
  exists input ocs,
    getinput m args = Ret input
    /\ scan (S (length input)) th m input 0%nat [] = Ret ocs
    /\ store_all m [] ocs = Ret (_options ui)
    /\ _mode ui = m.
Proof.
  rewrite parse_named_unfold. intros H.
  apply bind_ret_inv in H. destruct H as [input [Hin H]].
  apply bind_ret_inv in H. destruct H as [ocs [Hocs H]].
  apply bind_ret_inv in H. destruct H as [d [Hd H]].
  apply bind_ret_inv in H. destruct H as [[operands nested] [_ H]].
  exists input, ocs. rewrite Hin, Hocs, Hd.
  destruct nested as [|name' nested'].
  - injection H as <-. auto.
  - apply bind_ret_inv in H. destruct H as [mode [_ H]].
    destruct depth as [|depth]; [discriminate|].
    apply bind_ret_inv in H. destruct H as [c [_ H]]. injection H as <-. auto.
Qed.


End ParserProperties.

(** ** The theorems at work on the sample modes *)

Lemma separator_keeps_operands_witness :
  exists ui, Sample.parse Sample.tool ["--flag"; "--"; "a"; "b"; "c"] = Ret ui
             /\ _operands ui = ["a"; "b"; "c"] /\ _child ui = None.
Proof.
  refine (separator_keeps_operands Sample.dashed Sample.handlers Sample.handlers
            Sample.tool "--flag" ["a"; "b"; "c"]
            (Sample.opt_of (Sample.mkDecl "--flag" None [] false))
            (Sample.opt_of (Sample.mkDecl "--flag" None [] false))
            _ _ _ _ _ _); reflexivity.
Defined.


Lemma retraction_hands_operand_to_child_witness :
  _getheuroperands Sample.dashed Sample.root ["-x"; "file1"; "-y"]
  = Ret ([], ["file1"; "-y"])
  /\ Sample.parse Sample.root ["-x"; "file1"; "-y"] = Raise (KeyError "file1").
Proof.
  refine (retraction_hands_operand_to_child Sample.dashed Sample.handlers
            Sample.handlers Sample.root "-x" "file1" "-y"
            (Sample.opt_of (Sample.mkDecl "-x" None [] false))
            (Sample.opt_of (Sample.mkDecl "-x" None [] false))
            _ _ _ _ _ _ _ _ _ _ _ _); reflexivity.
Defined.

(** C1 as stated fails: on the mode [root] with the flag [-x] and the child
    mode [go] accepting [-y], parsing [-x file1 -y] returns no result at
    all, hence none with the operands [file1] and a child result. *)
Lemma heuristic_boundary_example_fails :
  Sample.accepts_only_child = true
  /\ ~ (exists ui c, Sample.parse Sample.root ["-x"; "file1"; "-y"] = Ret ui
                     /\ _operands ui = ["file1"] /\ _child ui = Some c).
Proof.
  split; [reflexivity|].
  intros [ui [c [H _]]]. vm_compute in H. discriminate H.
Qed.






(** The whole pipeline on [tool -v --verbose --opt val a -v x]: the window
    [-v --verbose --opt val] is scanned, [a] names the child mode, the
    child counts its own [-v], and [finalise] adds the parent's two. *)
Example parse_then_finalise :
  Sample.parse Sample.tool ["-v"; "--verbose"; "--opt"; "val"; "a"; "-v"; "x"]
  = Ret (mkUI [("-v", VInt 2); ("--verbose", VInt 2); ("--opt", VTuple [VStr "val"])]
              [] "" Sample.tool
              (Some (mkUI [("-v", VInt 1); ("--verbose", VInt 1)] ["x"] "a"
                          Sample.tool_a None)))
  /\ (ui <- Sample.parse Sample.tool
              ["-v"; "--verbose"; "--opt"; "val"; "a"; "-v"; "x"] ;;
      ui' <- finalise ui ;;
      match _child ui' with
      | Some c => get c "--verbose" true
      | None => Raise (KeyError "")
      end) = Ret (VInt 3)
  /\ (ui <- Sample.parse Sample.tool ["--opt"; "val"] ;; get ui "--opt" true)
     = Ret (VStr "val").
Proof. repeat split. Qed.

(** When the child mode is named, the boundary is found without any
    retraction. *)
Example named_child_mode :
  Sample.parse Sample.root ["-x"; "file1"; "go"; "-y"]
  = Ret (mkUI [("-x", VNone)] ["file1"] "" Sample.root
              (Some (mkUI [("-y", VNone)] [] "go" Sample.go None))).
Proof. reflexivity. Qed.
(** * Further properties of [parser.py] *)

Section ParserRest.

Variable lookslikeopt : string -> bool.
Variable default_typehandlers : registry.

Local Abbreviation getinput := (_getinput lookslikeopt).
Local Abbreviation heuralgo := (_heuralgo lookslikeopt).
Local Abbreviation getheuroperands := (_getheuroperands lookslikeopt).
Local Abbreviation scan := (parse_loop lookslikeopt).
Local Abbreviation parse_at := (parse_named lookslikeopt default_typehandlers).
Local Abbreviation run := (parse lookslikeopt default_typehandlers).

(** ** The input window *)

Lemma getinput_loop_lower (m : Mode) (args : list string) :
  forall fuel i index z,
    (index < Z.of_nat i)%Z ->
    getinput_loop lookslikeopt fuel m args i index = Ret z -> (index <= z)%Z.
Proof.
  induction fuel as [|fuel IH]; intros i index z Hidx H; [discriminate|].
  cbn [getinput_loop] in H.
  destruct (i <? length args)%nat; [|injection H as <-; lia].
  destruct (nth i args "" =? "--"); [injection H as <-; lia|].
  destruct ((i =? 0)%nat && negb (lookslikeopt (nth i args "")));
    [injection H as <-; lia|].
  destruct ((0 <? i)%nat && negb (lookslikeopt (nth i args ""))
            && negb (lookslikeopt (nth (i - 1) args "")));
    [injection H as <-; lia|].
  destruct ((0 <? i)%nat && negb (lookslikeopt (nth i args ""))
            && lookslikeopt (nth (i - 1) args "")
            && null (params m (nth (i - 1) args "")));
    [injection H as <-; lia|].
  destruct ((0 <? i)%nat && negb (lookslikeopt (nth i args ""))
            && lookslikeopt (nth (i - 1) args "")
            && negb (null (params m (nth (i - 1) args ""))));
    apply IH in H; lia.
Qed.

(** The window is a prefix of the arguments. *)
Lemma getinput_prefix (m : Mode) (args : list string) :
  exists input rest, getinput m args = Ret input /\ args = input ++ rest.
Proof.
  unfold _getinput.
  destruct (getinput_loop_returns lookslikeopt m args (S (length args)) 0%nat (-1)%Z)
    as [z Hz]; [lia|].
  rewrite Hz. cbn [bind].
  destruct (0 <=? z)%Z.
  - exists (firstn (Z.to_nat (z + 1)) args), (skipn (Z.to_nat (z + 1)) args).
    split; [reflexivity | symmetry; apply firstn_skipn].
  - exists [], args. split; reflexivity.
Qed.

(** X1: [_getinput] never fails, and what it returns is a prefix of the
    arguments. *)
Theorem getinput_is_prefix (m : Mode) (args : list string) :
  exists input rest, getinput m args = Ret input /\ args = input ++ rest.
Proof. exact (getinput_prefix m args). Qed.

Lemma getinput_loop_first (m : Mode) (a : string) (rest : list string) :
  lookslikeopt a = true -> (a =? "--") = false ->
  forall fuel index,
    getinput_loop lookslikeopt (S fuel) m (a :: rest) 0%nat index
    = getinput_loop lookslikeopt fuel m (a :: rest) 1%nat 0%Z.
Proof.
  intros Hl Hs fuel index.
  cbn [getinput_loop length Nat.ltb Nat.leb nth Nat.eqb Nat.sub].
  rewrite Hs, Hl. reflexivity.
Qed.

(** A first token that looks like an option and is not the separator
    opens the window. *)
Lemma getinput_head (m : Mode) (a : string) (rest : list string) :
  lookslikeopt a = true -> (a =? "--") = false ->
  exists rest', getinput m (a :: rest) = Ret (a :: rest').
Proof.
  intros Hl Hs. unfold _getinput.
  rewrite (getinput_loop_first m a rest Hl Hs).
  destruct (getinput_loop_returns lookslikeopt m (a :: rest)
              (length (a :: rest)) 1%nat 0%Z) as [z Hz]; [simpl; lia|].
  rewrite Hz. cbn [bind].
  assert (Hlo : (0 <= z)%Z)
    by (apply (getinput_loop_lower m (a :: rest) (length (a :: rest)) 1%nat 0%Z z);
        [lia | exact Hz]).
  replace (0 <=? z)%Z with true by (symmetry; apply Z.leb_le; exact Hlo).
  replace (Z.to_nat (z + 1)) with (S (Z.to_nat z)) by lia.
  cbn [firstn]. eexists; reflexivity.
Qed.

(** When the window is empty. *)
Lemma getinput_empty (m : Mode) (args : list string) :
  getinput m args = Ret []
  <-> match args with
      | [] => True
      | a :: _ => (a =? "--") = true \/ lookslikeopt a = false
      end.
Proof.
  destruct args as [|a rest]; [split; [trivial | reflexivity]|].
  split.
  - intros H. destruct (a =? "--") eqn:Hs; [left; reflexivity|].
    destruct (lookslikeopt a) eqn:Hl; [|right; reflexivity].
    destruct (getinput_head m a rest Hl Hs) as [rest' H']. congruence.
  - unfold _getinput.
    cbn [length getinput_loop Nat.ltb Nat.leb nth Nat.eqb Nat.sub].
    intros [Hs|Hl]; [rewrite Hs; reflexivity|].
    rewrite Hl. destruct (a =? "--"); reflexivity.
Qed.

(** X2: the window is empty exactly when there is no argument, or the
    first one is the separator, or the first one does not look like an
    option. *)
Theorem getinput_empty_iff (m : Mode) (args : list string) :
  getinput m args = Ret []
  <-> match args with
      | [] => True
      | a :: _ => (a =? "--") = true \/ lookslikeopt a = false
      end.
Proof. exact (getinput_empty m args). Qed.

(** ** The split into operands and nested input *)

Lemma firstn_snoc (l : list string) (i : nat) :
  (i < length l)%nat -> firstn i l ++ [nth i l ""] = firstn (S i) l.
Proof.
  revert i; induction l as [|x l IH]; intros i Hi; [simpl in Hi; lia|].
  destruct i as [|i]; [reflexivity|].
  cbn [firstn nth app]. f_equal. apply IH. simpl in Hi; lia.
Qed.

(** The loop of [_heuralgo] keeps [operands] equal to the tokens before
    position [i]. *)
Lemma heuralgo_loop_split (m : Mode) (opers : list string) :
  forall fuel i operands ops k,
    operands = firstn i opers -> (i <= length opers)%nat ->
    heuralgo_loop lookslikeopt fuel m opers i operands = Ret (ops, k) ->
    ops = firstn k opers /\ (k <= length opers)%nat.
Proof.
  induction fuel as [|fuel IH]; intros i operands ops k Hops Hi H; [discriminate|].
  cbn [heuralgo_loop] in H.
  destruct (i <? length opers)%nat eqn:Hlt; [|injection H as <- <-; auto].
  apply Nat.ltb_lt in Hlt.
  destruct (hasmode m (nth i opers "")); [injection H as <- <-; auto|].
  destruct (lookslikeopt (nth i opers "") && _isAcceptedInChildModes m (nth i opers "")).
  - subst operands.
    destruct i as [|i]; [destruct opers; discriminate|].
    destruct (firstn (S i) opers) as [|o os] eqn:E; [discriminate|].
    rewrite <- E in H. replace (S i - 1)%nat with i in H by lia.
    injection H as <- <-. split; [|lia].
    apply removelast_firstn. lia.
  - apply (IH _ _ _ _) in H; [exact H| |lia].
    rewrite Hops, Nat.add_1_r. apply firstn_snoc. exact Hlt.
Qed.

(** Once an operand has been appended, the loop cannot fail. *)
Lemma heuralgo_loop_after_first (m : Mode) (opers : list string) :
  forall fuel i operands,
    operands <> [] -> (length opers - i < fuel)%nat ->
    exists r, heuralgo_loop lookslikeopt fuel m opers i operands = Ret r.
Proof.
  induction fuel as [|fuel IH]; intros i operands Hne Hfuel; [lia|].
  cbn [heuralgo_loop].
  destruct (i <? length opers)%nat eqn:Hlt; [|eexists; reflexivity].
  apply Nat.ltb_lt in Hlt.
  destruct (hasmode m (nth i opers "")); [eexists; reflexivity|].
  destruct (lookslikeopt (nth i opers "") && _isAcceptedInChildModes m (nth i opers "")).
  - destruct operands; [contradiction | eexists; reflexivity].
  - apply IH; [|lia]. destruct operands; discriminate.
Qed.

Lemma heuralgo_loop_first (m : Mode) (t : string) (rest : list string) (fuel : nat) :
  heuralgo_loop lookslikeopt (S fuel) m (t :: rest) 0%nat []
  = if hasmode m t then Ret ([], 0%nat)
    else if lookslikeopt t && _isAcceptedInChildModes m t then Raise IndexError
         else heuralgo_loop lookslikeopt fuel m (t :: rest) 1%nat [t].
Proof. reflexivity. Qed.

(** What [_heuralgo] gives back. *)
Lemma heuralgo_split (m : Mode) (opers : list string) :
  match heuralgo m opers with
  | Ret (operands, nested) => operands ++ nested = opers
  | Raise e =>
      e = IndexError
      /\ exists t rest, opers = t :: rest /\ hasmode m t = false
                        /\ lookslikeopt t = true
                        /\ _isAcceptedInChildModes m t = true
  | OutOfFuel => False
  end.
Proof.
  unfold _heuralgo.
  destruct opers as [|t rest].
  - reflexivity.
  - rewrite heuralgo_loop_first.
    destruct (hasmode m t) eqn:Hm; [reflexivity|].
    destruct (lookslikeopt t && _isAcceptedInChildModes m t) eqn:Hc.
    + apply andb_prop in Hc. destruct Hc as [Hl Ha].
      cbn [bind]. split; [reflexivity|]. exists t, rest. auto.
    + destruct (heuralgo_loop_after_first m (t :: rest) (length (t :: rest)) 1 [t])
        as [[ops k] Hr]; [discriminate | simpl; lia |].
      rewrite Hr. cbn [bind].
      destruct (heuralgo_loop_split m (t :: rest) (length (t :: rest)) 1%nat [t] ops k
                  eq_refl ltac:(simpl; lia) Hr) as [-> _].
      apply firstn_skipn.
Qed.

(** X3: [_heuralgo] loses and invents no token: when it returns, the
    operands followed by the nested input are the tokens it was given.
    Its only failure is the [IndexError] on a first token that looks like
    an option some child mode accepts. *)
Theorem heuralgo_conserves_tokens (m : Mode) (opers : list string) :
  match heuralgo m opers with
  | Ret (operands, nested) => operands ++ nested = opers
  | Raise e =>
      e = IndexError
      /\ exists t rest, opers = t :: rest /\ hasmode m t = false
                        /\ lookslikeopt t = true
                        /\ _isAcceptedInChildModes m t = true
  | OutOfFuel => False
  end.
Proof. exact (heuralgo_split m opers). Qed.

(** X4: inside [parse] the split never fails and conserves the
    arguments: they are the window, the operands and the nested input in
    a row, or the window, the separator and the operands. *)
Theorem getheuroperands_conserves_tokens (m : Mode) (args : list string) :
  exists input operands nested,
    getinput m args = Ret input
    /\ getheuroperands m args = Ret (operands, nested)
    /\ (args = input ++ operands ++ nested
        \/ (args = input ++ "--" :: operands /\ nested = [])).
Proof.
  destruct (getinput_returns lookslikeopt m args) as [input [Hin _]].
  assert (Hsplit : args = input ++ skipn (length input) args).
  { destruct (getinput_prefix m args) as (input' & rest & Hin' & Hargs).
    rewrite Hin in Hin'. injection Hin' as <-.
    rewrite Hargs at 2. rewrite skipn_app, skipn_all, Nat.sub_diag. exact Hargs. }
  exists input. unfold _getheuroperands. rewrite Hin. cbn [bind].
  destruct (skipn (length input) args) as [|t rest] eqn:Hskip.
  - cbn [negb]. exists [], []. repeat split.
    left. rewrite !app_nil_r in *. exact Hsplit.
  - destruct (t =? "--") eqn:Hs; cbn [negb tl].
    + apply String.eqb_eq in Hs. subst t.
      exists rest, []. repeat split. right. split; [exact Hsplit | reflexivity].
    + pose proof (window_is_followed_by_plain_token lookslikeopt m args input t rest
                    Hin Hskip Hs) as Hplain.
      pose proof (heuralgo_split m (t :: rest)) as Hc.
      destruct (heuralgo m (t :: rest)) as [[ops nested]|e|].
      * exists ops, nested. repeat split. left. rewrite Hc. exact Hsplit.
      * destruct Hc as (_ & t' & rest' & E & _ & Hl & _).
        injection E as <- <-. congruence.
      * contradiction.
Qed.

(** A run of tokens none of which names a child mode or is an option of
    a child mode is kept whole. *)
Lemma heuralgo_loop_all_operands (m : Mode) (opers : list string) :
  forallb (fun s => negb (hasmode m s)
                    && negb (lookslikeopt s && _isAcceptedInChildModes m s)) opers = true ->
  forall fuel i operands,
    (length opers - i < fuel)%nat -> operands = firstn i opers ->
    (i <= length opers)%nat ->
    heuralgo_loop lookslikeopt fuel m opers i operands = Ret (opers, length opers).
Proof.
  intros Hall. rewrite forallb_forall in Hall.
  induction fuel as [|fuel IH]; intros i operands Hfuel Hops Hi; [lia|].
  cbn [heuralgo_loop].
  destruct (i <? length opers)%nat eqn:Hlt.
  - apply Nat.ltb_lt in Hlt.
    specialize (Hall _ (nth_In opers "" Hlt)).
    apply andb_prop in Hall. destruct Hall as [H1 H2].
    apply negb_true_iff in H1, H2. rewrite H1, H2.
    apply IH; [lia | | lia].
    rewrite Hops, Nat.add_1_r. apply firstn_snoc. exact Hlt.
  - apply Nat.ltb_ge in Hlt. replace i with (length opers) in * by lia.
    rewrite Hops, firstn_all. reflexivity.
Qed.

(** X5: arguments that begin with a plain token and hold no name of a
    child mode and no option of a child mode are all operands: the
    result has no option, no child, and the arguments as its operands. *)
Theorem plain_arguments_are_operands (th : registry) (m : Mode) (args : list string) :
  match args with
  | [] => True
  | a :: _ => (a =? "--") = false /\ lookslikeopt a = false
  end ->
  forallb (fun s => negb (hasmode m s)
                    && negb (lookslikeopt s && _isAcceptedInChildModes m s)) args = true ->
  run th m args = Ret (mkUI [] args "" m None).
Proof.
  intros Hhead Hall.
  assert (Hwin : getinput m args = Ret []).
  { apply getinput_empty. destruct args; [trivial | right; apply Hhead]. }
  unfold parse. rewrite parse_named_unfold.
  rewrite Hwin. cbn [bind length parse_loop Nat.ltb Nat.leb store_all].
  unfold _getheuroperands. rewrite Hwin. cbn [bind length skipn].
  replace (match args with o :: _ => o =? "--" | [] => false end) with false
    by (destruct args; [reflexivity | symmetry; apply Hhead]).
  cbn [negb]. unfold _heuralgo.
  rewrite (heuralgo_loop_all_operands m args Hall _ 0%nat []) by (simpl; lia || reflexivity).
  cbn [bind]. rewrite skipn_all. reflexivity.
Qed.

End ParserRest.

(** * Further properties of [ParsedUI.finalise] *)

Lemma nodup_keys_set {V : Type} (d : dict V) (k : string) (v : V) :
  nodup_keys d = true -> nodup_keys (dict_set d k v) = true.
Proof.
  induction d as [|[k' v'] r IH]; intros H; [reflexivity|].
  cbn [nodup_keys] in H. apply andb_prop in H. destruct H as [H1 H2].
  cbn [dict_set]. destruct (k' =? k) eqn:E; cbn [nodup_keys].
  - apply String.eqb_eq in E. subst k'. rewrite H1, H2. reflexivity.
  - apply String.eqb_neq in E.
    rewrite dict_mem_set_other by (intros Heq; apply E; symmetry; exact Heq).
    rewrite H1, (IH H2). reflexivity.
Qed.

Lemma finalise_item_nodup (m : Mode) (copts copts' : dict Val) (kv : string * Val) :
  nodup_keys copts = true -> finalise_item m copts kv = Ret copts' ->
  nodup_keys copts' = true.
Proof.
  destruct kv as [k v]. intros Hnd H. unfold finalise_item in H.
  destruct (global_match m k) as [mt|]; [|injection H as <-; exact Hnd].
  apply bind_ret_inv in H. destruct H as [c1 [H1 H2]].
  assert (Hc1 : nodup_keys c1 = true).
  { destruct (dict_mem k copts && isplural mt && null (oparams mt)).
    - apply bind_ret_inv in H1. destruct H1 as [w [_ H1]].
      apply bind_ret_inv in H1. destruct H1 as [w' [_ H1]].
      injection H1 as <-. apply nodup_keys_set; exact Hnd.
    - injection H1 as <-. exact Hnd. }
  injection H2 as <-.
  destruct (negb (dict_mem k c1)); [apply nodup_keys_set|]; exact Hc1.
Qed.

Lemma finalise_items_nodup (m : Mode) (items : dict Val) :
  forall copts copts', nodup_keys copts = true ->
    finalise_items m items copts = Ret copts' -> nodup_keys copts' = true.
Proof.
  induction items as [|kv r IH]; intros copts copts' Hnd H.
  - injection H as <-. exact Hnd.
  - cbn [finalise_items] in H. apply bind_ret_inv in H. destruct H as [c1 [H1 H2]].
    exact (IH _ _ (finalise_item_nodup _ _ _ _ Hnd H1) H2).
Qed.




Lemma finalise_item_keeps (m : Mode) (copts copts' : dict Val) (k : string) (w : Val)
  (kv : string * Val) :
  counted m k = false -> dict_get copts k = Some w ->
  finalise_item m copts kv = Ret copts' -> dict_get copts' k = Some w.
Proof.
  destruct kv as [k' v']. intros Hc Hw H.
  destruct (String.eqb_spec k' k) as [->|Hne].
  - unfold finalise_item in H. unfold counted in Hc.
    destruct (global_match m k) as [mt|]; [|injection H as <-; exact Hw].
    rewrite <- andb_assoc, Hc, andb_false_r in H. cbn [bind] in H.
    unfold dict_mem in H. rewrite Hw in H. cbn [negb] in H.
    injection H as <-. exact Hw.
  - rewrite (finalise_item_other _ _ _ _ _ _ Hne H). exact Hw.
Qed.

Lemma finalise_items_keeps (m : Mode) (k : string) (w : Val) (items : dict Val) :
  counted m k = false ->
  forall copts copts', dict_get copts k = Some w ->
    finalise_items m items copts = Ret copts' -> dict_get copts' k = Some w.
Proof.
  intros Hc. induction items as [|kv r IH]; intros copts copts' Hw H.
  - injection H as <-. exact Hw.
  - cbn [finalise_items] in H. apply bind_ret_inv in H. destruct H as [c1 [H1 H2]].
    exact (IH _ _ (finalise_item_keeps _ _ _ _ _ _ Hc Hw H1) H2).
Qed.

(** X7: a value the child holds itself wins: unless the option is a
    counted one (global, repeatable, without parameter) in the parent's
    mode, [finalise] leaves the child's entry as it is, whatever the
    parent holds under that name. *)
Theorem finalise_keeps_child_value (p p' c : ParsedUI) (k : string) (w : Val) :
  _child p = Some c -> counted (_mode p) k = false ->
  dict_get (_options c) k = Some w ->
  finalise p = Ret p' ->
  exists c', _child p' = Some c' /\ dict_get (_options c') k = Some w.
Proof.
  intros Hc Hcnt Hw Hfin. unfold finalise in Hfin.
  destruct (finalise_from_inv _ _ _ Hfin) as (_ & _ & Hch). rewrite Hc in Hch.
  destruct Hch as (copts & c' & Hitems & Hrec & Hc').
  destruct (finalise_from_inv _ _ _ Hrec) as (Ho' & _ & _).
  exists c'. split; [exact Hc'|]. rewrite Ho'.
  exact (finalise_items_keeps _ _ _ _ Hcnt _ _ Hw Hitems).
Qed.

Lemma finalise_items_local (m : Mode) (k : string) (items : dict Val) :
  global_match m k = None ->
  forall copts copts', finalise_items m items copts = Ret copts' ->
                       dict_get copts' k = dict_get copts k.
Proof.
  intros Hg. induction items as [|[k' v'] r IH]; intros copts copts' H.
  - injection H as <-. reflexivity.
  - cbn [finalise_items] in H. apply bind_ret_inv in H. destruct H as [c1 [H1 H2]].
    rewrite (IH _ _ H2).
    destruct (String.eqb_spec k' k) as [->|Hne].
    + unfold finalise_item in H1. rewrite Hg in H1. injection H1 as <-. reflexivity.
    + exact (finalise_item_other _ _ _ _ _ _ Hne H1).
Qed.

(** X8: an option that no global option of the parent's mode matches is
    never handed down: the child's entry under its name, present or
    absent, is after [finalise] what it was before. *)
Theorem finalise_skips_local_options (p p' c : ParsedUI) (k : string) :
  _child p = Some c -> global_match (_mode p) k = None ->
  finalise p = Ret p' ->
  exists c', _child p' = Some c'
             /\ dict_get (_options c') k = dict_get (_options c) k.
Proof.
  intros Hc Hg Hfin. unfold finalise in Hfin.
  destruct (finalise_from_inv _ _ _ Hfin) as (_ & _ & Hch). rewrite Hc in Hch.
  destruct Hch as (copts & c' & Hitems & Hrec & Hc').
  destruct (finalise_from_inv _ _ _ Hrec) as (Ho' & _ & _).
  exists c'. split; [exact Hc'|]. rewrite Ho'.
  exact (finalise_items_local _ _ _ Hg _ _ Hitems).
Qed.

Lemma finalise_items_copies (m : Mode) (k : string) (mt : Opt) (v : Val)
  (items copts copts' : dict Val) :
  nodup_keys items = true -> global_match m k = Some mt ->
  dict_get items k = Some v -> dict_get copts k = None ->
  finalise_items m items copts = Ret copts' -> dict_get copts' k = Some v.
Proof.
  intros Hnd Hg Hv Hnone H.
  destruct (finalise_items_reach _ k v _ Hnd Hv _ _ H) as (c0 & c1 & E0 & E1 & E2).
  rewrite E2. rewrite Hnone in E0. unfold finalise_item in E1. rewrite Hg in E1.
  unfold dict_mem in E1. rewrite E0 in E1. cbn [andb bind negb] in E1.
  rewrite E0 in E1. cbn [negb] in E1. injection E1 as <-.
  apply dict_get_set_same.
Qed.

(** X9: a global option goes down the whole chain: set at the top, absent
    from the child and from the grandchild, and global in the modes of
    the top and of the child, it is after [finalise] in the grandchild
    with the value of the top. *)
Theorem finalise_reaches_grandchild (p p' c g : ParsedUI) (k : string)
  (mt mt' : Opt) (v : Val) :
  _child p = Some c -> _child c = Some g ->
  nodup_keys (_options p) = true -> nodup_keys (_options c) = true ->
  global_match (_mode p) k = Some mt -> global_match (_mode c) k = Some mt' ->
  dict_get (_options p) k = Some v ->
  dict_get (_options c) k = None -> dict_get (_options g) k = None ->
  finalise p = Ret p' ->
  exists c' g', _child p' = Some c' /\ _child c' = Some g'
                /\ dict_get (_options c') k = Some v
                /\ dict_get (_options g') k = Some v.
Proof.
  intros Hc Hg Hndp Hndc Hgp Hgc Hv Hnc Hng Hfin. unfold finalise in Hfin.
  destruct (finalise_from_inv _ _ _ Hfin) as (_ & _ & Hch). rewrite Hc in Hch.
  destruct Hch as (copts & c' & Hitems & Hrec & Hc').
  destruct (finalise_from_inv _ _ _ Hrec) as (Ho' & _ & Hch'). rewrite Hg in Hch'.
  destruct Hch' as (gopts & g' & Hitems' & Hrec' & Hg').
  destruct (finalise_from_inv _ _ _ Hrec') as (Ho'' & _ & _).
  pose proof (finalise_items_copies _ _ _ _ _ _ _ Hndp Hgp Hv Hnc Hitems) as Hcv.
  exists c', g'. repeat split; [exact Hc' | exact Hg' | rewrite Ho'; exact Hcv |].
  rewrite Ho''.
  apply (finalise_items_copies (_mode c) k mt' v copts (_options g) gopts);
    [|exact Hgc | exact Hcv | exact Hng | exact Hitems'].
  exact (finalise_items_nodup _ _ _ _ Hndc Hitems).
Qed.

Lemma finalise_keeps_child_value_witness :
  exists c', _child (mkUI (_options Sample2.ui_top) [] "" Sample2.top
                      (Some (mkUI [("--out", VTuple [VStr "b"]);
                                   ("-v", VInt 1); ("--verbose", VInt 1)] [] "sub"
                                  Sample2.sub
                                  (Some (mkUI [("--out", VTuple [VStr "b"]);
                                               ("-v", VInt 1); ("--verbose", VInt 1)]
                                              ["job"] "leaf" Sample2.leaf None)))))
             = Some c'
             /\ dict_get (_options c') "--out" = Some (VTuple [VStr "b"]).
Proof.
  apply (finalise_keeps_child_value Sample2.ui_top _ Sample2.ui_sub "--out"
           (VTuple [VStr "b"])); reflexivity.
Defined.

Lemma finalise_skips_local_options_witness :
  exists c', _child (mkUI (_options Sample2.ui_top) [] "" Sample2.top
                      (Some (mkUI [("--out", VTuple [VStr "b"]);
                                   ("-v", VInt 1); ("--verbose", VInt 1)] [] "sub"
                                  Sample2.sub
                                  (Some (mkUI [("--out", VTuple [VStr "b"]);
                                               ("-v", VInt 1); ("--verbose", VInt 1)]
                                              ["job"] "leaf" Sample2.leaf None)))))
             = Some c'
             /\ dict_get (_options c') "--local" = dict_get (_options Sample2.ui_sub) "--local".
Proof.
  apply (finalise_skips_local_options Sample2.ui_top _ Sample2.ui_sub "--local");
    reflexivity.
Defined.

Lemma finalise_reaches_grandchild_witness :
  exists c' g',
    _child (mkUI (_options Sample2.ui_top) [] "" Sample2.top
              (Some (mkUI [("--out", VTuple [VStr "b"]);
                           ("-v", VInt 1); ("--verbose", VInt 1)] [] "sub"
                          Sample2.sub
                          (Some (mkUI [("--out", VTuple [VStr "b"]);
                                       ("-v", VInt 1); ("--verbose", VInt 1)]
                                      ["job"] "leaf" Sample2.leaf None)))))
    = Some c'
    /\ _child c' = Some g'
    /\ dict_get (_options c') "-v" = Some (VInt 1)
    /\ dict_get (_options g') "-v" = Some (VInt 1).
Proof.
  apply (finalise_reaches_grandchild Sample2.ui_top _ Sample2.ui_sub Sample2.ui_leaf "-v"
           (Sample.opt_of (Sample.mkDecl "-v" (Some "--verbose") [] true))
           (Sample.opt_of (Sample.mkDecl "-v" (Some "--verbose") [] true))
           (VInt 1)); reflexivity.
Defined.

(** * Further properties of [Parser.parse] *)

Section ParseRest.

Variable lookslikeopt : string -> bool.
Variable default_typehandlers : registry.

Local Abbreviation getinput := (_getinput lookslikeopt).
Local Abbreviation getheuroperands := (_getheuroperands lookslikeopt).
Local Abbreviation scan := (parse_loop lookslikeopt).
Local Abbreviation parse_at := (parse_named lookslikeopt default_typehandlers).
Local Abbreviation run := (parse lookslikeopt default_typehandlers).





(** *** Counting a repeatable flag *)

Lemma named_flag_occurrences (m : Mode) (k : string) (zs : list string) :
  length (named k (flag_occurrences m zs)) = mentions m k zs.
Proof.
  unfold mentions. induction zs as [|z zs IH]; [reflexivity|].
  cbn [flag_occurrences flat_map]. fold (flag_occurrences m zs).
  change ((z, None) :: (if negb (alias m z =? z) then [(alias m z, None)] else [])
          ++ flag_occurrences m zs)
    with (((z, @None (list Val)) ::
           (if negb (alias m z =? z) then [(alias m z, None)] else []))
          ++ flag_occurrences m zs).
  rewrite named_app, length_app, IH. cbn [filter].
  assert (E : length (named k ((z, @None (list Val)) ::
                        (if negb (alias m z =? z) then [(alias m z, None)] else [])))
              = if (z =? k) || (alias m z =? k) then 1%nat else 0%nat).
  { unfold named. cbn [filter fst].
    destruct (String.eqb_spec z k) as [->|Hzk]; cbn [orb].
    - destruct (String.eqb_spec (alias m k) k) as [Ea|Ea]; cbn [negb filter map length];
        [reflexivity|].
      cbn [fst]. destruct (String.eqb_spec (alias m k) k); [contradiction | reflexivity].
    - destruct (String.eqb_spec (alias m z) k) as [Ea|Ea].
      + destruct (String.eqb_spec (alias m z) z) as [Eb|Eb]; [congruence|].
        cbn [negb filter fst]. rewrite Ea, String.eqb_refl. reflexivity.
      + destruct (negb (alias m z =? z)); cbn [filter fst map length]; [|reflexivity].
        destruct (String.eqb_spec (alias m z) k); [contradiction | reflexivity]. }
  rewrite E. destruct ((z =? k) || (alias m z =? k)); reflexivity.
Qed.

Lemma key_fold_counts (o : Opt) :
  isplural o = true -> oparams o = [] ->
  forall xs n, key_fold o (Some (VInt n)) xs
               = Ret (Some (VInt (n + Z.of_nat (length xs)))).
Proof.
  intros Hpl Hpar. induction xs as [|x xs IH]; intros n.
  - cbn [key_fold length]. do 3 f_equal. lia.
  - cbn [key_fold]. unfold key_step at 1. rewrite Hpl, Hpar. cbn [null negb andb py_iadd bind].
    rewrite IH. do 3 f_equal. cbn [length]. lia.
Qed.

Lemma key_fold_counts_from_none (o : Opt) (xs : list (option (list Val))) :
  isplural o = true -> oparams o = [] -> xs <> [] ->
  key_fold o None xs = Ret (Some (VInt (Z.of_nat (length xs)))).
Proof.
  intros Hpl Hpar Hne. destruct xs as [|x xs]; [contradiction|].
  cbn [key_fold]. unfold key_step at 1. rewrite Hpl, Hpar. cbn [null negb andb py_iadd bind].
  rewrite (key_fold_counts o Hpl Hpar). do 3 f_equal. cbn [length]. lia.
Qed.

(** The scan of a window made of flags records each flag and its other
    spelling. *)
Lemma scan_of_flags (th : registry) (m : Mode) (zs : list string) :
  forallb (is_flag lookslikeopt m) zs = true ->
  scan (S (length zs)) th m zs 0%nat [] = Ret (flag_occurrences m zs).
Proof.
  intros Hzs.
  pose proof (scan_flags lookslikeopt th m zs Hzs [] [] [] 1) as E.
  cbn [app length Nat.add] in E. rewrite app_nil_r in E.
  replace (S (length zs)) with (length zs + 1)%nat by lia.
  rewrite E. cbn [parse_loop]. rewrite Nat.ltb_irrefl. reflexivity.
Qed.

(** X11: a repeatable flag given [K] times (at either spelling) in an
    input made of flags of the mode is held as the count [K]: [get]
    returns exactly [K]. *)
Theorem get_counts_repeated_flag (th : registry) (m : Mode) (zs : list string)
  (ui : ParsedUI) (k : string) (o : Opt) (tuplise : bool) :
  forallb (is_flag lookslikeopt m) zs = true ->
  getopt m k = Some o -> isplural o = true -> oparams o = [] ->
  (0 < mentions m k zs)%nat ->
  run th m zs = Ret ui ->
  get ui k tuplise = Ret (VInt (Z.of_nat (mentions m k zs))).
Proof.
  intros Hzs Ho Hpl Hpar Hpos Hrun.
  destruct (parse_named_inv _ _ _ _ _ _ _ _ Hrun) as (input & ocs & Hin & Hocs & Hst & Hm).
  rewrite (getinput_flags lookslikeopt m zs Hzs) in Hin. injection Hin as <-.
  rewrite (scan_of_flags th m zs Hzs) in Hocs. injection Hocs as <-.
  pose proof (store_all_key m k o _ Ho _ _ Hst) as F. cbn [dict_get] in F.
  rewrite key_fold_counts_from_none in F; [|exact Hpl|exact Hpar|].
  2:{ intros E. apply (f_equal (@length _)) in E.
      rewrite named_flag_occurrences in E. simpl in E. lia. }
  rewrite named_flag_occurrences in F. injection F as F.
  unfold get, dict_item. rewrite Hm, Ho, <- F, Hpl, Hpar. reflexivity.
Qed.

(** *** Type handlers and nested parsers *)

Lemma scan_unresolved (th : registry) (m : Mode) (t n : string) (ps : list Param)
  (rest : list string) (fuel : nat) :
  lookslikeopt t = true -> accepts m t = true -> params m t = PName n :: ps ->
  dict_get th n = None ->
  scan (S fuel) th m (t :: rest) 0%nat [] = Raise (KeyError n).
Proof.
  intros Hl Ha Hp Hn. cbn [parse_loop length Nat.ltb Nat.leb nth].
  rewrite Hl, Ha, Hp. cbn [null andb negb coerce resolve].
  unfold dict_item. rewrite Hn. reflexivity.
Qed.

(** X12: a handler registered with [addTypeHandler] is not known to the
    parsers made for child modes.  When the arguments name a child mode
    and go on with an option of that mode whose parameter has a type the
    default handlers do not know, [parse] stops with a [KeyError] for
    that type, whatever has been registered on the parser. *)
Theorem nested_parser_ignores_added_handlers (p : Parser.t) (c t n : string)
  (rest : list string) (child : Mode) (ps : list Param) (h : handler) :
  Parser._args p = c :: t :: rest ->
  lookslikeopt c = false -> (c =? "--") = false ->
  dict_get (_modes (Parser._pmode p)) c = Some child ->
  lookslikeopt t = true -> (t =? "--") = false ->
  accepts child t = true -> params child t = PName n :: ps ->
  dict_get default_typehandlers n = None ->
  Parser.parse lookslikeopt default_typehandlers (Parser.addTypeHandler p n h)
  = Raise (KeyError n).
Proof.
  intros Hargs Hlc Hsc Hchild Hlt Hst Ha Hp Hn.
  unfold Parser.parse, Parser.addTypeHandler.
  cbn [Parser._args Parser._pmode Parser._typehandlers Parser._parsed_options
       Parser._breaker]. rewrite Hargs.
  assert (Hwin : getinput (Parser._pmode p) (c :: t :: rest) = Ret []).
  { apply (getinput_empty lookslikeopt). right. exact Hlc. }
  rewrite Hwin. cbn [bind length parse_loop Nat.ltb Nat.leb store_all].
  unfold _getheuroperands. rewrite Hwin. cbn [bind length skipn]. rewrite Hsc. cbn [negb].
  unfold _heuralgo. rewrite heuralgo_loop_first.
  unfold hasmode, dict_mem. rewrite Hchild. cbn [bind skipn].
  unfold dict_item. rewrite Hchild. cbn [bind].
  rewrite parse_named_unfold.
  destruct (getinput_head lookslikeopt child t rest Hlt Hst) as [rest' Hin].
  rewrite Hin. cbn [bind].
  rewrite (scan_unresolved default_typehandlers child t n ps rest' _ Hlt Ha Hp Hn).
  reflexivity.
Qed.

End ParseRest.

Lemma get_counts_repeated_flag_witness :
  get (mkUI [("-v", VInt 3); ("--verbose", VInt 3); ("--flag", VNone)] [] ""
            Sample.tool None) "-v" true
  = Ret (VInt (Z.of_nat (mentions Sample.tool "-v" ["-v"; "--verbose"; "--flag"; "-v"]))).
Proof.
  apply (get_counts_repeated_flag Sample.dashed Sample.handlers Sample.handlers
           Sample.tool ["-v"; "--verbose"; "--flag"; "-v"] _ "-v"
           (Sample.opt_of (Sample.mkDecl "-v" (Some "--verbose") [] true)) true);
    try reflexivity.
  vm_compute. lia.
Defined.


Lemma nested_parser_ignores_added_handlers_witness :
  Parser.parse Sample.dashed Sample.handlers
    (Parser.addTypeHandler (Sample2.parser ["sub"; "--when"; "2026-11-04"]) "date"
       Sample2.h_date)
  = Raise (KeyError "date").
Proof.
  apply (nested_parser_ignores_added_handlers Sample.dashed Sample.handlers
           (Sample2.parser ["sub"; "--when"; "2026-11-04"]) "sub" "--when" "date"
           ["2026-11-04"] Sample2.sub [] Sample2.h_date); reflexivity.
Defined.

(** * Properties of the other methods of [Parser] *)

Lemma take_before_spec (x : string) (l : list string) :
  mem x (take_before x l) = false
  /\ (mem x l = false -> take_before x l = l)
  /\ exists rest, l = take_before x l ++ rest.
Proof.
  unfold mem. induction l as [|y r (IH1 & IH2 & rest & IH3)].
  - repeat split. exists []. reflexivity.
  - cbn [take_before existsb]. destruct (String.eqb_spec y x) as [->|Hne].
    + rewrite String.eqb_refl. cbn [existsb orb]. repeat split; [discriminate|].
      exists (x :: r). reflexivity.
    + destruct (String.eqb_spec x y) as [E|_]; [symmetry in E; contradiction|].
      cbn [existsb orb]. rewrite (proj2 (String.eqb_neq x y))
        by (intros E; apply Hne; symmetry; exact E).
      cbn [orb]. repeat split; [exact IH1 | |].
      * intros H. f_equal. exact (IH2 H).
      * exists rest. cbn [app]. f_equal. exact IH3.
Qed.

Section ParserMethods.

Variable lookslikeopt : string -> bool.
Variable default_typehandlers : registry.

Local Abbreviation getinput := (_getinput lookslikeopt).
Local Abbreviation getheuroperands := (_getheuroperands lookslikeopt).
Local Abbreviation run := (parse lookslikeopt default_typehandlers).
Local Abbreviation getoperands_of := (Parser._getoperands lookslikeopt).

(** [_getoperands] cannot be used with its heuristics on a mode that has
    child modes: it calls [self.getOperandsRange()], which [Parser] does
    not have, and raises [AttributeError]; on a mode without child modes
    the heuristics change nothing. *)
Remark getoperands_heuristics (p : Parser.t) :
  (modes (Parser._pmode p) <> [] -> getoperands_of p true = Raise AttributeError)
  /\ (modes (Parser._pmode p) = [] -> getoperands_of p true = getoperands_of p false).
Proof.
  unfold Parser._getoperands. split; intros H.
  - destruct (modes (Parser._pmode p)); [contradiction | reflexivity].
  - rewrite H. reflexivity.
Qed.

(** X13: after the separator, [_getoperands] stops at the terminator
    [---] and hands out no [---], whereas the split that [parse] uses
    keeps every token after the separator, the terminator and what
    follows it included. *)
Theorem getoperands_honours_terminator (p : Parser.t) (input ops : list string) :
  getinput (Parser._pmode p) (Parser._args p) = Ret input ->
  skipn (length input) (Parser._args p) = "--" :: ops ->
  getoperands_of p false = Ret (take_before "---" ops, true)
  /\ mem "---" (take_before "---" ops) = false
  /\ (exists cut, ops = take_before "---" ops ++ cut)
  /\ getheuroperands (Parser._pmode p) (Parser._args p) = Ret (ops, []).
Proof.
  intros Hin Hskip.
  destruct (take_before_spec "---" ops) as (H1 & H2 & H3).
  repeat split; [| exact H1 | exact H3 |].
  - unfold Parser._getoperands. cbn [andb]. rewrite Hin. cbn [bind]. rewrite Hskip.
    rewrite String.eqb_refl. cbn [null negb andb tl]. rewrite andb_true_r.
    destruct (mem "---" ops) eqn:E; [reflexivity|]. rewrite (H2 eq_refl). reflexivity.
  - unfold _getheuroperands. rewrite Hin. cbn [bind]. rewrite Hskip.
    rewrite String.eqb_refl. reflexivity.
Qed.

(** X14: without a separator after the window, [_getoperands] hands out
    every remaining token, whatever the flag [_breaker] was left at by an
    earlier call: window and operands make up the arguments. *)
Theorem getoperands_without_separator (p : Parser.t) (input : list string) :
  getinput (Parser._pmode p) (Parser._args p) = Ret input ->
  match skipn (length input) (Parser._args p) with
  | [] => True
  | t :: _ => (t =? "--") = false
  end ->
  exists b, getoperands_of p false = Ret (skipn (length input) (Parser._args p), b)
            /\ Parser._args p = input ++ skipn (length input) (Parser._args p).
Proof.
  intros Hin Hhead. unfold Parser._getoperands. cbn [andb]. rewrite Hin. cbn [bind].
  assert (Hsplit : Parser._args p = input ++ skipn (length input) (Parser._args p)).
  { destruct (getinput_prefix lookslikeopt (Parser._pmode p) (Parser._args p))
      as (input' & rest & Hin' & Hargs).
    rewrite Hin in Hin'. injection Hin' as <-.
    rewrite Hargs at 2. rewrite skipn_app, skipn_all, Nat.sub_diag. exact Hargs. }
  destruct (skipn (length input) (Parser._args p)) as [|t rest].
  - exists (Parser._breaker p). cbn [null negb]. rewrite andb_false_r.
    cbn [mem existsb andb]. split; [reflexivity | exact Hsplit].
  - exists false. rewrite Hhead. cbn [andb null negb]. rewrite andb_false_r.
    split; [reflexivity | exact Hsplit].
Qed.

(** *** Looking for a token in the window *)

Lemma strininput_loop_sound (m : Mode) (s : string) (input : list string) :
  forall fuel i, Parser.strininput_loop lookslikeopt fuel m s input i = Ret true ->
                 In s input.
Proof.
  induction fuel as [|fuel IH]; intros i H; [discriminate|].
  cbn [Parser.strininput_loop] in H.
  destruct (i <? length input)%nat eqn:Hi; [|discriminate].
  apply Nat.ltb_lt in Hi.
  destruct (String.eqb_spec s (nth i input "")) as [->|_]; [apply nth_In; exact Hi|].
  destruct (lookslikeopt (nth i input "") && accepts m (nth i input "")).
  - destruct (getopt m (nth i input "")); [exact (IH _ H) | discriminate].
  - exact (IH _ H).
Qed.

Lemma ininput_loop_sound (m : Mode) (o : Opt) (input : list string) :
  forall fuel i, Parser.ininput_loop lookslikeopt fuel m o input i = Ret true ->
                 exists s, In s input /\ omatch o s = true.
Proof.
  induction fuel as [|fuel IH]; intros i H; [discriminate|].
  cbn [Parser.ininput_loop] in H.
  destruct (i <? length input)%nat eqn:Hi; [|discriminate].
  apply Nat.ltb_lt in Hi.
  destruct (omatch o (nth i input "")) eqn:E.
  - exists (nth i input ""). split; [apply nth_In; exact Hi | exact E].
  - destruct (lookslikeopt (nth i input "") && accepts m (nth i input "")).
    + destruct (getopt m (nth i input "")); [exact (IH _ H) | discriminate].
    + exact (IH _ H).
Qed.

(** [_strininput] and [_ininput] answer [True] only for what is in the
    arguments: the string itself, or a token the option matches. *)
Remark ininput_is_sound (p : Parser.t) (s : string) (o : Opt) :
  (Parser._strininput lookslikeopt p s = Ret true -> In s (Parser._args p))
  /\ (Parser._ininput lookslikeopt p o = Ret true ->
      exists t, In t (Parser._args p) /\ omatch o t = true).
Proof.
  unfold Parser._strininput, Parser._ininput. split; intros H;
    apply bind_ret_inv in H; destruct H as [input [Hin H]].
  - apply (getinput_incl lookslikeopt _ _ _ Hin).
    exact (strininput_loop_sound _ _ _ _ _ H).
  - destruct (ininput_loop_sound _ _ _ _ _ H) as [t [Ht Hm]].
    exists t. split; [exact (getinput_incl lookslikeopt _ _ _ Hin t Ht) | exact Hm].
Qed.

(** X15: the values of an option are passed over: in a window made of an
    option and its values, a string other than the option is reported
    absent, even when it is one of the values. *)
Theorem strininput_skips_values (p : Parser.t) (t s : string) (vs : list string)
  (o : Opt) :
  getinput (Parser._pmode p) (Parser._args p) = Ret (t :: vs) ->
  lookslikeopt t = true -> accepts (Parser._pmode p) t = true ->
  getopt (Parser._pmode p) t = Some o -> length (oparams o) = length vs ->
  (s =? t) = false ->
  Parser._strininput lookslikeopt p s = Ret false.
Proof.
  intros Hin Hl Ha Ho Hlen Hs. unfold Parser._strininput. rewrite Hin. cbn [bind].
  remember (length (t :: vs)) as f eqn:Hf.
  cbn [Parser.strininput_loop nth]. rewrite <- Hf.
  replace (0 <? f)%nat with true by (symmetry; apply Nat.ltb_lt; subst f; simpl; lia).
  rewrite Hs, Hl, Ha, Ho. cbn [andb].
  destruct f as [|f]; [discriminate|]. cbn [Parser.strininput_loop]. rewrite <- Hf.
  replace (0 + length (oparams o) + 1 <? S f)%nat with false; [reflexivity|].
  symmetry. apply Nat.ltb_ge. simpl in Hf. lia.
Qed.

(** *** The parser as an object *)

(** X16: on a new parser, [parse] leaves in [ui()] the result of the
    parse, and the accessors of the parser answer as those of that
    result: [getoperands], the [in] test and [get]. *)
Theorem parser_accessors_agree (p : Parser.t) :
  Parser._parsed_options p = [] ->
  match Parser.parse lookslikeopt default_typehandlers p with
  | Ret p' =>
      exists ui, run (Parser._typehandlers p) (Parser._pmode p) (Parser._args p) = Ret ui
                 /\ Parser.ui p' = Some ui
                 /\ Parser.getoperands p' = _operands ui
                 /\ (forall k, Ret (Parser.__contains__ p' k) = __contains__ ui k)
                 /\ (forall k tuplise, Parser.get p' k tuplise = get ui k tuplise)
  | Raise e => run (Parser._typehandlers p) (Parser._pmode p) (Parser._args p) = Raise e
  | OutOfFuel => False
  end.
Proof.
  intros Hfresh. unfold Parser.parse, parse. rewrite parse_named_unfold, Hfresh.
  destruct (getinput (Parser._pmode p) (Parser._args p)) as [input| |] eqn:Hin;
    cbn [bind]; [|reflexivity|].
  2:{ destruct (getinput_returns lookslikeopt (Parser._pmode p) (Parser._args p))
        as [i' [E _]]. congruence. }
  pose proof (scan_finishes lookslikeopt (Parser._typehandlers p) (Parser._pmode p) input
                (S (length input)) 0%nat [] ltac:(lia)) as Hscan.
  destruct (parse_loop lookslikeopt (S (length input)) (Parser._typehandlers p)
              (Parser._pmode p) input 0 []) as [options|e|];
    cbn [bind]; [|reflexivity|exact (Hscan eq_refl)].
  pose proof (store_all_finishes (Parser._pmode p) options []) as Hstore.
  destruct (store_all (Parser._pmode p) [] options) as [d|e|];
    cbn [bind]; [|reflexivity|exact (Hstore eq_refl)].
  destruct (getheuroperands_spec lookslikeopt (Parser._pmode p) (Parser._args p))
    as [Hf Hb].
  destruct (getheuroperands (Parser._pmode p) (Parser._args p))
    as [[operands nested]|e|]; cbn [bind]; [|reflexivity|exact (Hf eq_refl)].
  specialize (Hb _ _ eq_refl).
  destruct nested as [|name nested'].
  - cbn [bind]. eexists. repeat split.
  - simpl in Hb.
    destruct (dict_item (_modes (Parser._pmode p)) name) as [mode|e|] eqn:Hmode;
      cbn [bind]; [|reflexivity|].
    2:{ unfold dict_item in Hmode. destruct (dict_get _ name); discriminate. }
    destruct (length (Parser._args p)) as [|depth] eqn:Hlen; [lia|].
    rewrite (parse_named_depth lookslikeopt default_typehandlers depth (length nested'))
      by lia.
    pose proof (parse_named_finishes lookslikeopt default_typehandlers (length nested')
                  default_typehandlers name mode nested' (le_n _)) as Hc.
    destruct (parse_named lookslikeopt default_typehandlers (length nested')
                default_typehandlers name mode nested') as [c|e|];
      cbn [bind]; [|reflexivity|exact (Hc eq_refl)].
    eexists. repeat split.
Qed.

(** X17: a second [parse] on the same parser adds to what the first one
    stored: the dictionary of options is made once, in [__init__], so a
    repeatable flag given [K] times stands at [K] after the first parse
    and at [K + K] after the second. *)
Theorem parsing_twice_adds_counts (p p1 p2 : Parser.t) (k : string) (o : Opt)
  (tuplise : bool) :
  Parser._parsed_options p = [] ->
  forallb (is_flag lookslikeopt (Parser._pmode p)) (Parser._args p) = true ->
  getopt (Parser._pmode p) k = Some o -> isplural o = true -> oparams o = [] ->
  (0 < mentions (Parser._pmode p) k (Parser._args p))%nat ->
  Parser.parse lookslikeopt default_typehandlers p = Ret p1 ->
  Parser.parse lookslikeopt default_typehandlers p1 = Ret p2 ->
  Parser.get p1 k tuplise
  = Ret (VInt (Z.of_nat (mentions (Parser._pmode p) k (Parser._args p))))
  /\ Parser.get p2 k tuplise
     = Ret (VInt (Z.of_nat (mentions (Parser._pmode p) k (Parser._args p))
                  + Z.of_nat (mentions (Parser._pmode p) k (Parser._args p)))).
Proof.
  intros Hfresh Hzs Ho Hpl Hpar Hpos H1 H2.
  assert (Hne : named k (flag_occurrences (Parser._pmode p) (Parser._args p)) <> []).
  { intros E. apply (f_equal (@length _)) in E.
    rewrite named_flag_occurrences in E. simpl in E. lia. }
  assert (Hstep : forall q q', Parser._pmode q = Parser._pmode p ->
            Parser._args q = Parser._args p ->
            Parser.parse lookslikeopt default_typehandlers q = Ret q' ->
            Parser._pmode q' = Parser._pmode p /\ Parser._args q' = Parser._args p
            /\ store_all (Parser._pmode p) (Parser._parsed_options q)
                 (flag_occurrences (Parser._pmode p) (Parser._args p))
               = Ret (Parser._parsed_options q')).
  { intros q q' Hm Ha H. unfold Parser.parse in H. rewrite Hm, Ha in H.
    rewrite (getinput_flags lookslikeopt _ _ Hzs) in H. cbn [bind] in H.
    rewrite (scan_of_flags lookslikeopt _ _ _ Hzs) in H. cbn [bind] in H.
    apply bind_ret_inv in H. destruct H as [d [Hd H]].
    apply bind_ret_inv in H. destruct H as [[operands nested] [_ H]].
    apply bind_ret_inv in H. destruct H as [child [_ H]].
    injection H as <-. cbn. auto. }
  destruct (Hstep p p1 eq_refl eq_refl H1) as (Hm1 & Ha1 & S1).
  destruct (Hstep p1 p2 Hm1 Ha1 H2) as (Hm2 & _ & S2).
  pose proof (store_all_key _ k o _ Ho _ _ S1) as F1.
  pose proof (store_all_key _ k o _ Ho _ _ S2) as F2.
  rewrite Hfresh in F1. cbn [dict_get] in F1.
  rewrite (key_fold_counts_from_none o _ Hpl Hpar Hne), named_flag_occurrences in F1.
  injection F1 as F1. rewrite <- F1 in F2.
  rewrite (key_fold_counts o Hpl Hpar), named_flag_occurrences in F2.
  injection F2 as F2.
  unfold Parser.get, dict_item. rewrite Hm1, Hm2, Ho, <- F1, <- F2, Hpl, Hpar.
  split; reflexivity.
Qed.

End ParserMethods.

Lemma getoperands_honours_terminator_witness :
  Parser._getoperands Sample.dashed (tool_parser ["--flag"; "--"; "a"; "---"; "b"]) false
  = Ret (take_before "---" ["a"; "---"; "b"], true)
  /\ mem "---" (take_before "---" ["a"; "---"; "b"]) = false
  /\ (exists cut, ["a"; "---"; "b"] = take_before "---" ["a"; "---"; "b"] ++ cut)
  /\ _getheuroperands Sample.dashed
       (Parser._pmode (tool_parser ["--flag"; "--"; "a"; "---"; "b"]))
       (Parser._args (tool_parser ["--flag"; "--"; "a"; "---"; "b"]))
     = Ret (["a"; "---"; "b"], []).
Proof.
  apply (getoperands_honours_terminator Sample.dashed
           (tool_parser ["--flag"; "--"; "a"; "---"; "b"]) ["--flag"]); reflexivity.
Defined.

Lemma getoperands_without_separator_witness :
  exists b,
    Parser._getoperands Sample.dashed (tool_parser ["--flag"; "x"; "---"; "y"]) false
    = Ret (skipn (length ["--flag"]) (Parser._args (tool_parser ["--flag"; "x"; "---"; "y"])),
           b)
    /\ Parser._args (tool_parser ["--flag"; "x"; "---"; "y"])
       = ["--flag"] ++ skipn (length ["--flag"])
                         (Parser._args (tool_parser ["--flag"; "x"; "---"; "y"])).
Proof.
  apply (getoperands_without_separator Sample.dashed
           (tool_parser ["--flag"; "x"; "---"; "y"]) ["--flag"]); reflexivity.
Defined.

Lemma strininput_skips_values_witness :
  Parser._strininput Sample.dashed (tool_parser ["--opt"; "val"]) "val" = Ret false.
Proof.
  apply (strininput_skips_values Sample.dashed (tool_parser ["--opt"; "val"])
           "--opt" "val" ["val"]
           (Sample.opt_of (Sample.mkDecl "--opt" None [PName "str"] false)));
    reflexivity.
Defined.

(** The window of [--opt val -v] holds [val], which is not reported, and
    [-v], which is, at either spelling of the option. *)
Example ininput_on_sample :
  _getinput Sample.dashed Sample.tool ["--opt"; "val"; "-v"; "x"]
  = Ret ["--opt"; "val"; "-v"]
  /\ Parser._strininput Sample.dashed (tool_parser ["--opt"; "val"; "-v"; "x"]) "-v"
     = Ret true
  /\ Parser._strininput Sample.dashed (tool_parser ["--opt"; "val"; "-v"; "x"]) "--verbose"
     = Ret false
  /\ Parser._ininput Sample.dashed (tool_parser ["--opt"; "val"; "-v"; "x"])
       (Sample.opt_of (Sample.mkDecl "-v" (Some "--verbose") [] true))
     = Ret true.
Proof. repeat split. Qed.

Lemma parser_accessors_agree_witness :
  match Parser.parse Sample.dashed Sample.handlers
          (tool_parser ["-v"; "--opt"; "val"; "a"; "-v"; "x"]) with
  | Ret p' =>
      exists ui,
        parse Sample.dashed Sample.handlers
          (Parser._typehandlers (tool_parser ["-v"; "--opt"; "val"; "a"; "-v"; "x"]))
          (Parser._pmode (tool_parser ["-v"; "--opt"; "val"; "a"; "-v"; "x"]))
          (Parser._args (tool_parser ["-v"; "--opt"; "val"; "a"; "-v"; "x"])) = Ret ui
        /\ Parser.ui p' = Some ui
        /\ Parser.getoperands p' = _operands ui
        /\ (forall k, Ret (Parser.__contains__ p' k) = __contains__ ui k)
        /\ (forall k tuplise, Parser.get p' k tuplise = get ui k tuplise)
  | Raise e =>
      parse Sample.dashed Sample.handlers
        (Parser._typehandlers (tool_parser ["-v"; "--opt"; "val"; "a"; "-v"; "x"]))
        (Parser._pmode (tool_parser ["-v"; "--opt"; "val"; "a"; "-v"; "x"]))
        (Parser._args (tool_parser ["-v"; "--opt"; "val"; "a"; "-v"; "x"])) = Raise e
  | OutOfFuel => False
  end.
Proof.
  apply (parser_accessors_agree Sample.dashed Sample.handlers
           (tool_parser ["-v"; "--opt"; "val"; "a"; "-v"; "x"])).
  reflexivity.
Defined.

Lemma parsing_twice_adds_counts_witness :
  Parser.get (Parser.mk ["-v"; "--verbose"; "-v"] Sample.tool
                [("-v", VInt 3); ("--verbose", VInt 3)] [] false
                (Some (mkUI [("-v", VInt 3); ("--verbose", VInt 3)] [] "" Sample.tool None))
                Sample.handlers) "-v" true
  = Ret (VInt (Z.of_nat (mentions (Parser._pmode (tool_parser ["-v"; "--verbose"; "-v"]))
                           "-v" (Parser._args (tool_parser ["-v"; "--verbose"; "-v"])))))
  /\ Parser.get (Parser.mk ["-v"; "--verbose"; "-v"] Sample.tool
                   [("-v", VInt 6); ("--verbose", VInt 6)] [] false
                   (Some (mkUI [("-v", VInt 6); ("--verbose", VInt 6)] [] "" Sample.tool
                               None))
                   Sample.handlers) "-v" true
     = Ret (VInt (Z.of_nat (mentions (Parser._pmode (tool_parser ["-v"; "--verbose"; "-v"]))
                              "-v" (Parser._args (tool_parser ["-v"; "--verbose"; "-v"])))
                  + Z.of_nat (mentions (Parser._pmode (tool_parser ["-v"; "--verbose"; "-v"]))
                                "-v" (Parser._args (tool_parser ["-v"; "--verbose"; "-v"]))))).
Proof.
  apply (parsing_twice_adds_counts Sample.dashed Sample.handlers
           (tool_parser ["-v"; "--verbose"; "-v"]) _ _ "-v"
           (Sample.opt_of (Sample.mkDecl "-v" (Some "--verbose") [] true)) true);
    try reflexivity.
  vm_compute. lia.
Defined.

(** At the top level the added handler is the one applied: a parser for
    the mode [sub] itself, with [date] registered, stores the value. *)
Example added_handler_at_top_level :
  (p <- Parser.parse Sample.dashed Sample.handlers
          (Parser.addTypeHandler
             (Parser.feed (Parser.__init__ Sample.handlers Sample2.sub)
                          ["--when"; "2026-11-04"]) "date" Sample2.h_date) ;;
   Parser.get p "--when" true) = Ret (VObj "2026-11-04")
  /\ Parser.parse Sample.dashed Sample.handlers
       (Parser.feed (Parser.__init__ Sample.handlers Sample2.sub) ["--when"; "2026-11-04"])
     = Raise (KeyError "date").
Proof. repeat split. Qed.

(** * Navigation along the chain *)

Lemma update_length (h : Chain.heap) (a : nat) (f : Chain.obj -> Chain.obj) :
  length (Chain.update h a f) = length h.
Proof.
  revert a; induction h as [|o r IH]; intros [|a]; cbn [Chain.update length];
    try reflexivity. rewrite IH. reflexivity.
Qed.

Lemma update_nth (h : Chain.heap) (a j : nat) (f : Chain.obj -> Chain.obj) :
  nth_error (Chain.update h a f) j
  = if (j =? a)%nat then option_map f (nth_error h j) else nth_error h j.
Proof.
  revert a j; induction h as [|o r IH]; intros [|a] [|j];
    cbn [Chain.update nth_error Nat.eqb option_map]; try reflexivity.
  - destruct (j =? a)%nat; reflexivity.
  - apply IH.
Qed.

Lemma appendmode_length (h : Chain.heap) (s m : nat) :
  length (Chain._appendmode h s m) = length h.
Proof. unfold Chain._appendmode. rewrite !update_length. reflexivity. Qed.

Lemma appendmode_child (h : Chain.heap) (s m j : nat) :
  (s < length h)%nat ->
  Chain.child_of (Chain._appendmode h s m) j
  = if (j =? s)%nat then Some m else Chain.child_of h j.
Proof.
  intros Hs. unfold Chain.child_of, Chain._appendmode. rewrite !update_nth.
  destruct (j =? s)%nat eqn:E.
  - apply Nat.eqb_eq in E. subst j.
    destruct (nth_error h s) as [o|] eqn:Ho; [|apply nth_error_None in Ho; lia].
    destruct (s =? m)%nat; reflexivity.
  - destruct (j =? m)%nat; [|reflexivity].
    destruct (nth_error h j); reflexivity.
Qed.

Lemma appendmode_parent (h : Chain.heap) (s m j : nat) :
  (m < length h)%nat ->
  Chain.parent_of (Chain._appendmode h s m) j
  = if (j =? m)%nat then Some s else Chain.parent_of h j.
Proof.
  intros Hm. unfold Chain.parent_of, Chain._appendmode. rewrite !update_nth.
  destruct (j =? m)%nat eqn:E.
  - apply Nat.eqb_eq in E. subst j.
    destruct (nth_error h m) as [o|] eqn:Ho; [|apply nth_error_None in Ho; lia].
    destruct (m =? s)%nat; reflexivity.
  - destruct (j =? s)%nat; [|reflexivity].
    destruct (nth_error h j); reflexivity.
Qed.

Lemma link_length (h : Chain.heap) (n : nat) :
  forall a, length (link h a n) = length h.
Proof.
  induction n as [|n IH]; intros a; cbn [link]; [reflexivity|].
  rewrite appendmode_length. apply IH.
Qed.

Lemma link_child (h : Chain.heap) (n : nat) :
  forall a j, (a + n < length h)%nat ->
    Chain.child_of (link h a n) j
    = if ((a <=? j) && (j <? a + n))%nat then Some (S j) else Chain.child_of h j.
Proof.
  induction n as [|n IH]; intros a j Hlen; cbn [link].
  - replace ((a <=? j) && (j <? a + 0))%nat with false; [reflexivity|].
    symmetry. apply andb_false_iff.
    destruct (Nat.leb_spec a j); [right; apply Nat.ltb_ge; lia | left; reflexivity].
  - rewrite appendmode_child by (rewrite link_length; lia).
    rewrite IH by lia.
    destruct (Nat.eqb_spec j a) as [->|Hne].
    + replace ((a <=? a) && (a <? a + S n))%nat with true; [reflexivity|].
      symmetry. apply andb_true_iff. split; [apply Nat.leb_le | apply Nat.ltb_lt]; lia.
    + destruct ((S a <=? j) && (j <? S a + n))%nat eqn:E1;
        destruct ((a <=? j) && (j <? a + S n))%nat eqn:E2; try reflexivity.
      * apply andb_true_iff in E1. destruct E1 as [E1 E1'].
        apply Nat.leb_le in E1. apply Nat.ltb_lt in E1'.
        apply andb_false_iff in E2.
        destruct E2 as [E2|E2]; [apply Nat.leb_gt in E2 | apply Nat.ltb_ge in E2]; lia.
      * apply andb_true_iff in E2. destruct E2 as [E2 E2'].
        apply Nat.leb_le in E2. apply Nat.ltb_lt in E2'.
        apply andb_false_iff in E1.
        destruct E1 as [E1|E1]; [apply Nat.leb_gt in E1 | apply Nat.ltb_ge in E1]; lia.
Qed.

Lemma link_parent (h : Chain.heap) (n : nat) :
  forall a j, (a + n < length h)%nat ->
    Chain.parent_of (link h a n) j
    = if ((a <? j) && (j <=? a + n))%nat then Some (j - 1)%nat else Chain.parent_of h j.
Proof.
  induction n as [|n IH]; intros a j Hlen; cbn [link].
  - replace ((a <? j) && (j <=? a + 0))%nat with false; [reflexivity|].
    symmetry. apply andb_false_iff.
    destruct (Nat.ltb_spec a j); [right; apply Nat.leb_gt; lia | left; reflexivity].
  - rewrite appendmode_parent by (rewrite link_length; lia).
    rewrite IH by lia.
    destruct (Nat.eqb_spec j (S a)) as [->|Hne].
    + replace ((a <? S a) && (S a <=? a + S n))%nat with true;
        [f_equal; lia|].
      symmetry. apply andb_true_iff. split; [apply Nat.ltb_lt | apply Nat.leb_le]; lia.
    + destruct ((S a <? j) && (j <=? S a + n))%nat eqn:E1;
        destruct ((a <? j) && (j <=? a + S n))%nat eqn:E2; try reflexivity.
      * apply andb_true_iff in E1. destruct E1 as [E1 E1'].
        apply Nat.ltb_lt in E1. apply Nat.leb_le in E1'.
        apply andb_false_iff in E2.
        destruct E2 as [E2|E2]; [apply Nat.ltb_ge in E2 | apply Nat.leb_gt in E2]; lia.
      * apply andb_true_iff in E2. destruct E2 as [E2 E2'].
        apply Nat.ltb_lt in E2. apply Nat.leb_le in E2'.
        apply andb_false_iff in E1.
        destruct E1 as [E1|E1]; [apply Nat.ltb_ge in E1 | apply Nat.leb_gt in E1]; lia.
Qed.

Lemma objects_of_spec (ui : ParsedUI) :
  length (objects_of ui) = S (nesting ui)
  /\ forall j, Chain.child_of (objects_of ui) j = None
               /\ Chain.parent_of (objects_of ui) j = None.
Proof.
  revert ui. fix rec 1. intros [o ops nm m [c|]]; cbn [objects_of nesting _child].
  - destruct (rec c) as [Hlen Hj]. split; [cbn [length]; rewrite Hlen; reflexivity|].
    intros [|j]; [split; reflexivity|].
    unfold Chain.child_of, Chain.parent_of in *. cbn [nth_error]. apply Hj.
  - split; [reflexivity|]. intros [|[|j]]; split; reflexivity.
Qed.

(** The links of the chain of a result: every object but the last has the
    next one as its child, every object but the top has the one before as
    its parent. *)
Lemma heap_of_links (ui : ParsedUI) (j : nat) :
  length (heap_of ui) = S (nesting ui)
  /\ Chain.child_of (heap_of ui) j = (if (j <? nesting ui)%nat then Some (S j) else None)
  /\ Chain.parent_of (heap_of ui) j
     = (if ((0 <? j) && (j <=? nesting ui))%nat then Some (j - 1)%nat else None).
Proof.
  destruct (objects_of_spec ui) as [Hlen Hnone]. unfold heap_of.
  rewrite link_length, link_child, link_parent by (rewrite Hlen; lia).
  destruct (Hnone j) as [-> ->]. cbn [Nat.add Nat.leb andb]. auto.
Qed.

(** X18: along the chain that [parse] links, [down] and [up] undo each
    other, they stay put at the ends, [islast] holds at the last object
    only, and [top] comes back to the top object from every object. *)
Theorem chain_navigation (ui : ParsedUI) (a extra : nat) :
  (a <= nesting ui)%nat ->
  Chain.down (heap_of ui) a = (if (a <? nesting ui)%nat then S a else a)
  /\ Chain.up (heap_of ui) a = (a - 1)%nat
  /\ Chain.islast (heap_of ui) a = (a =? nesting ui)%nat
  /\ ((a < nesting ui)%nat -> Chain.up (heap_of ui) (Chain.down (heap_of ui) a) = a)
  /\ ((0 < a)%nat -> Chain.down (heap_of ui) (Chain.up (heap_of ui) a) = a)
  /\ Chain.top (S a + extra) (heap_of ui) a = Ret 0%nat.
Proof.
  intros Ha.
  assert (Hdown : forall j, Chain.down (heap_of ui) j
                            = if (j <? nesting ui)%nat then S j else j).
  { intros j. unfold Chain.down. destruct (heap_of_links ui j) as (_ & -> & _).
    destruct (j <? nesting ui)%nat; reflexivity. }
  assert (Hup : forall j, (j <= nesting ui)%nat -> Chain.up (heap_of ui) j = (j - 1)%nat).
  { intros j Hj. unfold Chain.up. destruct (heap_of_links ui j) as (_ & _ & ->).
    destruct j as [|j]; [reflexivity|].
    replace (S j <=? nesting ui)%nat with true by (symmetry; apply Nat.leb_le; lia).
    reflexivity. }
  repeat split.
  - apply Hdown.
  - apply Hup, Ha.
  - unfold Chain.islast. destruct (heap_of_links ui a) as (_ & -> & _).
    destruct (Nat.ltb_spec a (nesting ui)); symmetry;
      [apply Nat.eqb_neq | apply Nat.eqb_eq]; lia.
  - intros Hlt. rewrite Hdown.
    replace (a <? nesting ui)%nat with true by (symmetry; apply Nat.ltb_lt; lia).
    rewrite Hup by lia. lia.
  - intros Hpos. rewrite Hup by lia. rewrite Hdown.
    replace (a - 1 <? nesting ui)%nat with true by (symmetry; apply Nat.ltb_lt; lia).
    lia.
  - clear Hdown Hup. induction a as [|a IH]; cbn [Chain.top Nat.add].
    + destruct (heap_of_links ui 0) as (_ & _ & ->). reflexivity.
    + destruct (heap_of_links ui (S a)) as (_ & _ & ->).
      replace (S a <=? nesting ui)%nat with true by (symmetry; apply Nat.leb_le; lia).
      cbn [Nat.ltb Nat.leb andb]. replace (S a - 1)%nat with a by lia.
      apply IH. lia.
Qed.

Lemma chain_navigation_witness :
  Chain.down (heap_of Sample2.ui_top) 1 = (if (1 <? nesting Sample2.ui_top)%nat then 2 else 1)%nat
  /\ Chain.up (heap_of Sample2.ui_top) 1 = (1 - 1)%nat
  /\ Chain.islast (heap_of Sample2.ui_top) 1 = (1 =? nesting Sample2.ui_top)%nat
  /\ ((1 < nesting Sample2.ui_top)%nat ->
      Chain.up (heap_of Sample2.ui_top) (Chain.down (heap_of Sample2.ui_top) 1) = 1%nat)
  /\ ((0 < 1)%nat ->
      Chain.down (heap_of Sample2.ui_top) (Chain.up (heap_of Sample2.ui_top) 1) = 1%nat)
  /\ Chain.top (2 + 0) (heap_of Sample2.ui_top) 1 = Ret 0%nat.
Proof. apply (chain_navigation Sample2.ui_top 1 0). vm_compute. lia. Defined.

(** X19: [top] relies on the chain having a top: on an object appended to
    itself the loop never ends, whatever room it is given, while [down]
    and [up] stay on that object. *)
Theorem top_diverges_on_self_parent (h : Chain.heap) (a : nat) (fuel : nat) :
  (a < length h)%nat ->
  Chain.top fuel (Chain._appendmode h a a) a = OutOfFuel
  /\ Chain.down (Chain._appendmode h a a) a = a
  /\ Chain.up (Chain._appendmode h a a) a = a
  /\ Chain.islast (Chain._appendmode h a a) a = false.
Proof.
  intros Ha.
  assert (Hp : Chain.parent_of (Chain._appendmode h a a) a = Some a)
    by (rewrite appendmode_parent, Nat.eqb_refl by exact Ha; reflexivity).
  assert (Hc : Chain.child_of (Chain._appendmode h a a) a = Some a)
    by (rewrite appendmode_child, Nat.eqb_refl by exact Ha; reflexivity).
  repeat split.
  - induction fuel as [|fuel IH]; cbn [Chain.top]; [reflexivity|]. rewrite Hp. exact IH.
  - unfold Chain.down. rewrite Hc. reflexivity.
  - unfold Chain.up. rewrite Hp. reflexivity.
  - unfold Chain.islast. rewrite Hc. reflexivity.
Qed.

Lemma top_diverges_on_self_parent_witness :
  Chain.top 100 (Chain._appendmode [Chain.__init__] 0 0) 0 = OutOfFuel
  /\ Chain.down (Chain._appendmode [Chain.__init__] 0 0) 0 = 0%nat
  /\ Chain.up (Chain._appendmode [Chain.__init__] 0 0) 0 = 0%nat
  /\ Chain.islast (Chain._appendmode [Chain.__init__] 0 0) 0 = false.
Proof.
  apply (top_diverges_on_self_parent [Chain.__init__] 0 100). vm_compute. lia.
Defined.

(** * Properties of the single-level parser ([clap.py]) *)

Lemma legacy_bind_ok {A B : Type} (x : Legacy.result A) (k : A -> Legacy.result B) (b : B) :
  Legacy.bind x k = Legacy.Ok b -> exists a, x = Legacy.Ok a /\ k a = Legacy.Ok b.
Proof.
  destruct x as [a|e]; simpl; intros H; [|discriminate].
  exists a. split; [reflexivity | exact H].
Qed.

Lemma is_switch_inv (p : Legacy.t) (z : string) :
  Legacy.is_switch p z = true -> (z =? "--") = false /\ Legacy.isopt p z "b" = true.
Proof.
  unfold Legacy.is_switch. intros H. apply andb_prop in H. destruct H as [H1 H2].
  apply negb_true_iff in H1. auto.
Qed.

(** The loop of [_parseopts] walks through a run of declared switches. *)
Lemma parseopts_switches (p : Legacy.t) (pre : list string) :
  forallb (Legacy.is_switch p) pre = true ->
  forall rest i acc,
    Legacy.parseopts_from p (pre ++ rest) i acc
    = Legacy.parseopts_from p rest (i + length pre)%nat
        (acc ++ map (fun z => (z, "")) pre).
Proof.
  induction pre as [|z pre IH]; intros Hpre rest i acc.
  - cbn [app length map]. rewrite Nat.add_0_r, app_nil_r. reflexivity.
  - cbn [forallb] in Hpre. apply andb_prop in Hpre. destruct Hpre as [Hz Hpre].
    destruct (is_switch_inv p z Hz) as [Hs Ho].
    cbn [app Legacy.parseopts_from]. rewrite Hs, Ho. rewrite (IH Hpre).
    cbn [length map]. rewrite <- app_assoc. cbn [app].
    replace (i + 1 + length pre)%nat with (i + S (length pre))%nat by lia. reflexivity.
Qed.

(** What the loop of [_parseopts] has read when it returns. *)
Lemma parseopts_conserves (p : Legacy.t) :
  forall n rest i acc opts' k,
    (length rest <= n)%nat ->
    Legacy.parseopts_from p rest i acc = Legacy.Ok (opts', k) ->
    exists new sep,
      opts' = acc ++ new /\ (sep = [] \/ sep = ["--"]) /\ (i <= k)%nat
      /\ rest = flat_map (Legacy.tokens_of p) new ++ sep ++ skipn (k - i) rest.
Proof.
  induction n as [|n IH]; intros rest i acc opts' k Hlen H.
  - destruct rest; [|simpl in Hlen; lia]. injection H as <- <-.
    exists [], []. rewrite app_nil_r, Nat.sub_diag. auto.
  - destruct rest as [|opt rest'].
    { injection H as <- <-. exists [], []. rewrite app_nil_r, Nat.sub_diag. auto. }
    cbn [Legacy.parseopts_from] in H. cbn [length] in Hlen.
    destruct (String.eqb_spec opt "--") as [->|Hsep].
    { injection H as <- <-. exists [], ["--"]. rewrite app_nil_r.
      replace (i + 1 - i)%nat with 1%nat by lia. repeat split; auto. lia. }
    destruct (Legacy.isopt p opt "b") eqn:Ho.
    { destruct (IH rest' _ _ _ _ ltac:(lia) H) as (new & sep & E1 & E2 & E3 & E4).
      exists ((opt, "") :: new), sep. repeat split; [| exact E2 | lia |].
      - rewrite E1, <- app_assoc. reflexivity.
      - cbn [flat_map]. unfold Legacy.tokens_of at 1. cbn [fst]. rewrite Ho.
        cbn [app]. f_equal.
        replace (k - i)%nat with (S (k - (i + 1)))%nat by lia. cbn [skipn]. exact E4. }
    destruct (Legacy.isopt p (opt ++ ":") "b").
    { destruct rest' as [|value rest'']; [discriminate|]. cbn [length] in Hlen.
      destruct (IH rest'' _ _ _ _ ltac:(lia) H) as (new & sep & E1 & E2 & E3 & E4).
      exists ((opt, value) :: new), sep. repeat split; [| exact E2 | lia |].
      - rewrite E1, <- app_assoc. reflexivity.
      - cbn [flat_map]. unfold Legacy.tokens_of at 1. cbn [fst snd]. rewrite Ho.
        cbn [app]. do 2 f_equal.
        replace (k - i)%nat with (S (S (k - (i + 1 + 1))))%nat by lia.
        cbn [skipn]. exact E4. }
    destruct opt as [|c opt']; [discriminate|].
    destruct (Ascii.eqb c "-"); [discriminate|]. injection H as <- <-.
    exists [], []. rewrite app_nil_r, Nat.sub_diag. auto.
Qed.

(** What [parse] has read when it returns. *)
Lemma legacy_parse_split (p p' : Legacy.t) :
  Legacy.parse p = Legacy.Ok p' ->
  exists sep, (sep = [] \/ sep = ["--"])
              /\ Legacy.argv p
                 = flat_map (Legacy.tokens_of p) (Legacy.opts p') ++ sep ++ Legacy.getargs p'
              /\ Legacy.parsed p' = true /\ Legacy.argv p' = Legacy.argv p.
Proof.
  unfold Legacy.parse, Legacy._parseopts. intros H.
  apply legacy_bind_ok in H. destruct H as [[p1 n] [H1 H]].
  apply legacy_bind_ok in H1. destruct H1 as [[o k] [H1 E]].
  injection E as <- <-. injection H as <-. cbn.
  destruct (parseopts_conserves p _ _ _ _ _ _ (le_n _) H1)
    as (new & sep & E1 & E2 & _ & E4).
  exists sep. cbn [app] in E1. subst o. rewrite Nat.sub_0_r in E4. auto.
Qed.

(** X20: [parse] loses no argument: the arguments are the options taken
    (each with its value when it is declared with one), then the
    separator if the options ended on it, then the operands. *)
Theorem legacy_parse_conserves (p p' : Legacy.t) :
  Legacy.parse p = Legacy.Ok p' ->
  exists sep, (sep = [] \/ sep = ["--"])
              /\ Legacy.argv p
                 = flat_map (Legacy.tokens_of p) (Legacy.opts p') ++ sep ++ Legacy.getargs p'
              /\ Legacy.parsed p' = true /\ Legacy.argv p' = Legacy.argv p.
Proof. exact (legacy_parse_split p p'). Qed.

(** X21: a token that begins with a dash and is no declared option,
    met while the options are read, stops [parse] with
    [UnexpectedOptionError]. *)
Theorem legacy_unexpected_option (p : Legacy.t) (pre rest : list string) (t : string) :
  Legacy.argv p = pre ++ String "-" t :: rest ->
  forallb (Legacy.is_switch p) pre = true ->
  (String "-" t =? "--") = false ->
  Legacy.isopt p (String "-" t) "b" = false ->
  Legacy.isopt p (String "-" t ++ ":") "b" = false ->
  Legacy.parse p = Legacy.Err (Legacy.UnexpectedOptionError (String "-" t)).
Proof.
  intros Hargv Hpre Hs Ho Hv. unfold Legacy.parse, Legacy._parseopts.
  rewrite Hargv, (parseopts_switches p pre Hpre).
  cbn [Legacy.parseopts_from]. rewrite Hs, Ho, Hv. reflexivity.
Qed.

(** X22: an option declared with a value that comes last, with no value
    after it, stops [parse] with [SwitchValueError]. *)
Theorem legacy_missing_value (p : Legacy.t) (pre : list string) (t : string) :
  Legacy.argv p = pre ++ [t] ->
  forallb (Legacy.is_switch p) pre = true ->
  (t =? "--") = false ->
  Legacy.isopt p t "b" = false -> Legacy.isopt p (t ++ ":") "b" = true ->
  Legacy.parse p = Legacy.Err (Legacy.SwitchValueError t).
Proof.
  intros Hargv Hpre Hs Ho Hv. unfold Legacy.parse, Legacy._parseopts.
  rewrite Hargv, (parseopts_switches p pre Hpre).
  cbn [Legacy.parseopts_from]. rewrite Hs, Ho, Hv. reflexivity.
Qed.

Lemma find_switch (l : list string) (z : string) :
  In z l ->
  find (fun kv : string * string => fst kv =? z) (map (fun y => (y, "")) l)
  = Some (z, "").
Proof.
  induction l as [|y l IH]; intros Hz; [contradiction|].
  cbn [map find fst]. destruct (String.eqb_spec y z) as [->|Hne]; [reflexivity|].
  destruct Hz as [->|Hz]; [contradiction | exact (IH Hz)].
Qed.

(** X23: the separator ends the options: what follows it becomes the
    operands untouched, whatever it looks like, and the separator itself
    is dropped. *)
Theorem legacy_separator (p : Legacy.t) (pre rest : list string) :
  Legacy.argv p = pre ++ "--" :: rest ->
  forallb (Legacy.is_switch p) pre = true ->
  exists p', Legacy.parse p = Legacy.Ok p'
             /\ Legacy.getargs p' = rest
             /\ Legacy.getpassed p' = Legacy.Ok pre
             /\ forall z, In z pre -> Legacy.getopt p' z = Legacy.Ok "".
Proof.
  intros Hargv Hpre.
  exists (Legacy.mk (Legacy.descript_short p) (Legacy.descript_long p) (Legacy.argv p)
            (map (fun z => (z, "")) pre) rest true).
  split; [|split; [reflexivity|split]].
  - unfold Legacy.parse, Legacy._parseopts.
    rewrite Hargv at 1. rewrite (parseopts_switches p pre Hpre).
    cbn [Legacy.parseopts_from String.eqb Ascii.eqb Bool.eqb Legacy.bind fst snd app
         Nat.add Legacy.descript_short Legacy.descript_long Legacy.argv Legacy.opts].
    do 2 f_equal. rewrite Hargv.
    replace (length pre + 1)%nat with (length (pre ++ ["--"]))
      by (rewrite length_app; reflexivity).
    replace (pre ++ "--" :: rest) with ((pre ++ ["--"]) ++ rest)
      by (rewrite <- app_assoc; reflexivity).
    rewrite skipn_app, skipn_all, Nat.sub_diag. reflexivity.
  - unfold Legacy.getpassed. cbn [Legacy.parsed Legacy.opts negb].
    rewrite map_map. cbn [fst]. rewrite map_id. reflexivity.
  - intros z Hz. unfold Legacy.getopt. cbn [Legacy.opts].
    rewrite (find_switch pre z Hz). reflexivity.
Qed.

Lemma legacy_mem_find (x : string) (l : list (string * string)) :
  mem x (map fst l) = true
  <-> exists v, find (fun kv => fst kv =? x) l = Some (x, v).
Proof.
  unfold mem. induction l as [|[k v] r IH]; cbn [map existsb find fst].
  - split; [discriminate | intros [v H]; discriminate].
  - destruct (String.eqb_spec k x) as [->|Hne].
    + rewrite String.eqb_refl. cbn [orb]. split; [eauto | reflexivity].
    + rewrite (proj2 (String.eqb_neq x k)) by (intros E; apply Hne; symmetry; exact E).
      cbn [orb]. exact IH.
Qed.

(** X24: before [parse], [waspassed] raises [NotParsedError]; after it,
    [waspassed] answers, and [getopt] returns a value for exactly the
    options it reports as passed and raises [OptionNotFoundError] for the
    others. *)
Theorem legacy_getopt_iff_passed (p p' : Legacy.t) (x : string) :
  Legacy.parsed p = false ->
  Legacy.parse p = Legacy.Ok p' ->
  Legacy.waspassed p x = Legacy.Err Legacy.NotParsedError
  /\ exists b, Legacy.waspassed p' x = Legacy.Ok b
               /\ (b = true <-> exists v, Legacy.getopt p' x = Legacy.Ok v)
               /\ (b = false <->
                   Legacy.getopt p' x = Legacy.Err (Legacy.OptionNotFoundError x)).
Proof.
  intros Hnot Hparse. split.
  { unfold Legacy.waspassed, Legacy.getpassed. rewrite Hnot. reflexivity. }
  destruct (legacy_parse_split p p' Hparse) as (_ & _ & _ & Hp & _).
  unfold Legacy.waspassed, Legacy.getpassed, Legacy.getopt. rewrite Hp. cbn [negb Legacy.bind].
  exists (mem x (map fst (Legacy.opts p'))). split; [reflexivity|].
  pose proof (legacy_mem_find x (Legacy.opts p')) as Hiff.
  destruct (find (fun kv => fst kv =? x) (Legacy.opts p')) as [[k v]|] eqn:E.
  - assert (Hm : mem x (map fst (Legacy.opts p')) = true).
    { apply Hiff. apply find_some in E. destruct E as [_ E]. cbn [fst] in E.
      apply String.eqb_eq in E. subst k. eauto. }
    rewrite Hm. split; split; try discriminate; eauto.
  - destruct (mem x (map fst (Legacy.opts p'))) eqn:Hm.
    + destruct (proj1 Hiff eq_refl) as [v Hv]. discriminate.
    + split; split; try discriminate; try reflexivity. intros [v Hv]. discriminate.
Qed.

(** X25: [getopt] returns the value given to an option: for an option
    declared with a value that comes after switches other than itself,
    it is the token that follows the option. *)
Theorem legacy_getopt_value (p p' : Legacy.t) (pre rest : list string) (t v : string) :
  Legacy.argv p = pre ++ t :: v :: rest ->
  forallb (Legacy.is_switch p) pre = true ->
  (t =? "--") = false ->
  Legacy.isopt p t "b" = false -> Legacy.isopt p (t ++ ":") "b" = true ->
  Legacy.parse p = Legacy.Ok p' ->
  Legacy.getopt p' t = Legacy.Ok v.
Proof.
  intros Hargv Hpre Hs Ho Hv Hparse. unfold Legacy.parse, Legacy._parseopts in Hparse.
  rewrite Hargv, (parseopts_switches p pre Hpre) in Hparse.
  cbn [Legacy.parseopts_from] in Hparse. rewrite Hs, Ho, Hv in Hparse.
  apply legacy_bind_ok in Hparse. destruct Hparse as [[p1 n] [H1 H]].
  apply legacy_bind_ok in H1. destruct H1 as [[o k] [H1 E]].
  injection E as <- <-. injection H as <-.
  destruct (parseopts_conserves p _ _ _ _ _ _ (le_n _) H1) as (new & _ & E1 & _).
  unfold Legacy.getopt. cbn [Legacy.opts]. subst o.
  cbn [app]. rewrite <- !app_assoc. cbn [app].
  assert (Hfind : forall l tail,
            (forall z, In z l -> Legacy.isopt p z "b" = true) ->
            find (fun kv : string * string => fst kv =? t)
                 (map (fun z => (z, "")) l ++ (t, v) :: tail) = Some (t, v)).
  { induction l as [|y l IH]; intros tail Hall; cbn [map app find fst].
    - rewrite String.eqb_refl. reflexivity.
    - destruct (String.eqb_spec y t) as [->|_].
      + rewrite (Hall t (or_introl eq_refl)) in Ho. discriminate.
      + apply IH. intros z Hz. apply Hall. right. exact Hz. }
  rewrite Hfind; [reflexivity|].
  intros z Hz. rewrite forallb_forall in Hpre.
  exact (proj2 (is_switch_inv p z (Hpre z Hz))).
Qed.

(** X26: a long option is recognised by what follows its first two
    characters, whatever these are: a token made of any two characters
    and a declared long name is taken as that option. *)
Theorem legacy_long_ignores_prefix (p : Legacy.t) (a b : ascii) (name : string) :
  mem name (Legacy.descript_long p) = true ->
  Legacy.argv p = [String a (String b name)] ->
  (String a (String b name) =? "--") = false ->
  Legacy.isopt p (String a (String b name)) "l" = true
  /\ Legacy.parse p
     = Legacy.Ok (Legacy.mk (Legacy.descript_short p) (Legacy.descript_long p)
                    (Legacy.argv p) [(String a (String b name), "")] [] true).
Proof.
  intros Hm Hargv Hs.
  assert (Hl : Legacy.isopt p (String a (String b name)) "l" = true)
    by (unfold Legacy.isopt; cbn [String.eqb Ascii.eqb Bool.eqb andb Legacy.drop2];
        exact Hm).
  split; [exact Hl|].
  unfold Legacy.parse, Legacy._parseopts. rewrite Hargv.
  cbn [Legacy.parseopts_from]. rewrite Hs.
  replace (Legacy.isopt p (String a (String b name)) "b") with true.
  - reflexivity.
  - symmetry. unfold Legacy.isopt. cbn [String.eqb Ascii.eqb Bool.eqb andb Legacy.drop2].
    rewrite Hm. apply orb_true_r.
Qed.

Lemma shorts_begin_with_dash (cs : list ascii) (x : string) :
  In x (Legacy.shorts_of cs) -> exists c r, x = String "-" (String c r).
Proof.
  induction cs as [|c rest IH]; cbn [Legacy.shorts_of]; [contradiction|].
  intros H. apply in_app_or in H. destruct H as [H|H]; [|exact (IH H)].
  destruct ((match rest with
             | ":"%char :: _ => String c ":"
             | _ => String c ""
             end) =? ":"); [contradiction|].
  destruct H as [<-|[]].
  destruct rest as [|d rest']; [exists c, ""; reflexivity|].
  destruct (Ascii.eqb_spec d ":") as [->|Hd]; [exists c, ":"; reflexivity|].
  exists c, "".
  destruct d as [[] [] [] [] [] [] [] []]; try reflexivity. contradiction Hd. reflexivity.
Qed.

Lemma mem_In (x : string) (l : list string) : mem x l = true <-> In x l.
Proof.
  unfold mem. rewrite existsb_exists. split.
  - intros [y [Hy E]]. apply String.eqb_eq in E. subst y. exact Hy.
  - intros H. exists x. split; [exact H | apply String.eqb_refl].
Qed.

(** X27: an empty string among the arguments, met while the options are
    read, makes [parse] raise [IndexError] (it looks at the first
    character of the token), unless the empty name is declared as a long
    option. *)
Theorem legacy_empty_argument (short : string) (long pre rest : list string) :
  mem "" long = false ->
  forallb (Legacy.is_switch (Legacy.__init__ short long (pre ++ "" :: rest))) pre = true ->
  Legacy.parse (Legacy.__init__ short long (pre ++ "" :: rest))
  = Legacy.Err Legacy.IndexError.
Proof.
  intros Hlong Hpre. unfold Legacy.parse, Legacy._parseopts.
  cbn [Legacy.argv Legacy.__init__].
  rewrite (parseopts_switches _ pre Hpre). cbn [Legacy.parseopts_from String.eqb].
  assert (Hshort : forall x, (x = "" \/ x = ":") ->
            mem x (Legacy.shorts_of (list_ascii_of_string short)) = false).
  { intros x Hx. destruct (mem x _) eqn:E; [|reflexivity].
    apply mem_In, shorts_begin_with_dash in E. destruct E as (c & r & E).
    destruct Hx; subst x; discriminate. }
  unfold Legacy.isopt. cbn [String.eqb Ascii.eqb Bool.eqb andb Legacy.drop2
                             Legacy.descript_short Legacy.descript_long String.append].
  change (Legacy.descript_short (Legacy.__init__ short long (pre ++ "" :: rest)))
    with (Legacy.shorts_of (list_ascii_of_string short)).
  change (Legacy.descript_long (Legacy.__init__ short long (pre ++ "" :: rest)))
    with long.
  rewrite (Hshort "" (or_introl eq_refl)), (Hshort ":" (or_intror eq_refl)), Hlong.
  reflexivity.
Qed.

(** When [check] accepts the arguments, no option with a value is the
    last of them. *)
Lemma check_guards_parseopts (p : Legacy.t) :
  forall n rest i acc t,
    (length rest <= n)%nat ->
    Legacy.check_from p false rest = Legacy.Ok tt ->
    Legacy.parseopts_from p rest i acc <> Legacy.Err (Legacy.SwitchValueError t).
Proof.
  induction n as [|n IH]; intros rest i acc t Hlen Hc.
  - destruct rest; [discriminate | simpl in Hlen; lia].
  - destruct rest as [|opt rest']; [discriminate|].
    cbn [length] in Hlen. cbn [Legacy.check_from] in Hc.
    rewrite andb_false_r in Hc.
    destruct (Legacy.isopt p (opt ++ ":") "b" && null rest') eqn:C1; [discriminate|].
    cbn [Legacy.parseopts_from].
    destruct (opt =? "--"); [discriminate|].
    destruct (Legacy.isopt p opt "b"); [apply IH; [lia | exact Hc]|].
    destruct (Legacy.isopt p (opt ++ ":") "b").
    + destruct rest' as [|value rest'']; [discriminate|].
      cbn [length] in Hlen. apply IH; [lia|].
      cbn [Legacy.check_from] in Hc. rewrite andb_false_r in Hc.
      destruct (Legacy.isopt p (value ++ ":") "b" && null rest''); [discriminate|exact Hc].
    + destruct opt as [|c opt']; [discriminate|].
      destruct (Ascii.eqb c "-"); discriminate.
Qed.

(** X28: arguments that [check] accepts never make [parse] raise
    [SwitchValueError]. *)
Theorem legacy_check_guards_parse (p : Legacy.t) (t : string) :
  Legacy.check p false = Legacy.Ok tt ->
  Legacy.parse p <> Legacy.Err (Legacy.SwitchValueError t).
Proof.
  unfold Legacy.check, Legacy.parse, Legacy._parseopts. intros Hc H.
  pose proof (check_guards_parseopts p _ _ 0%nat [] t (le_n _) Hc) as Hne.
  destruct (Legacy.parseopts_from p (Legacy.argv p) 0 []) as [[o k]|e]; cbn in H;
    [discriminate|]. apply Hne. injection H as ->. reflexivity.
Qed.

(** X29: [_splitshorts] replaces a cluster of declared one-letter
    switches by the switches themselves, drops a lone dash, and leaves
    what follows the separator untouched. *)
Theorem legacy_splitshorts_cluster (p : Legacy.t) (body : string) (rest : list string) :
  Legacy.argv p = String "-" body :: "--" :: rest ->
  (String "-" body =? "--") = false ->
  Legacy._areopts p (Legacy.letters (String "-" body)) "s" = true ->
  Legacy._splitshorts p
  = Legacy.Ok (Legacy.mk (Legacy.descript_short p) (Legacy.descript_long p)
                 (Legacy.letters (String "-" body) ++ "--" :: rest)
                 (Legacy.opts p) (Legacy.args p) (Legacy.parsed p)).
Proof.
  intros Hargv Hs Hare. unfold Legacy._splitshorts. rewrite Hargv.
  cbn [Legacy.splitshorts_from]. rewrite Hare, Hs.
  cbn [Ascii.eqb Bool.eqb andb negb app String.eqb].
  destruct (Legacy._areopts p (Legacy.letters "--") "s"); reflexivity.
Qed.

Lemma legacy_parse_conserves_witness :
  exists sep, (sep = [] \/ sep = ["--"])
    /\ Legacy.argv (legacy_parser ["-v"; "-o"; "out"; "--"; "-x"; "y"])
       = flat_map (Legacy.tokens_of (legacy_parser ["-v"; "-o"; "out"; "--"; "-x"; "y"]))
           (Legacy.opts (Legacy.mk ["-v"; "-h"; "-o:"] ["help"; "name:"]
                           ["-v"; "-o"; "out"; "--"; "-x"; "y"]
                           [("-v", ""); ("-o", "out")] ["-x"; "y"] true))
         ++ sep
         ++ Legacy.getargs (Legacy.mk ["-v"; "-h"; "-o:"] ["help"; "name:"]
                              ["-v"; "-o"; "out"; "--"; "-x"; "y"]
                              [("-v", ""); ("-o", "out")] ["-x"; "y"] true)
    /\ Legacy.parsed (Legacy.mk ["-v"; "-h"; "-o:"] ["help"; "name:"]
                        ["-v"; "-o"; "out"; "--"; "-x"; "y"]
                        [("-v", ""); ("-o", "out")] ["-x"; "y"] true) = true
    /\ Legacy.argv (Legacy.mk ["-v"; "-h"; "-o:"] ["help"; "name:"]
                      ["-v"; "-o"; "out"; "--"; "-x"; "y"]
                      [("-v", ""); ("-o", "out")] ["-x"; "y"] true)
       = Legacy.argv (legacy_parser ["-v"; "-o"; "out"; "--"; "-x"; "y"]).
Proof.
  apply (legacy_parse_conserves (legacy_parser ["-v"; "-o"; "out"; "--"; "-x"; "y"])).
  reflexivity.
Defined.

Lemma legacy_unexpected_option_witness :
  Legacy.parse (legacy_parser ["-v"; "-x"; "y"])
  = Legacy.Err (Legacy.UnexpectedOptionError "-x").
Proof.
  apply (legacy_unexpected_option (legacy_parser ["-v"; "-x"; "y"]) ["-v"] ["y"] "x");
    reflexivity.
Defined.

Lemma legacy_missing_value_witness :
  Legacy.parse (legacy_parser ["-v"; "-o"]) = Legacy.Err (Legacy.SwitchValueError "-o").
Proof.
  apply (legacy_missing_value (legacy_parser ["-v"; "-o"]) ["-v"] "-o"); reflexivity.
Defined.

Lemma legacy_separator_witness :
  exists p', Legacy.parse (legacy_parser ["-v"; "--help"; "--"; "-x"; "--"]) = Legacy.Ok p'
             /\ Legacy.getargs p' = ["-x"; "--"]
             /\ Legacy.getpassed p' = Legacy.Ok ["-v"; "--help"]
             /\ forall z, In z ["-v"; "--help"] -> Legacy.getopt p' z = Legacy.Ok "".
Proof.
  apply (legacy_separator (legacy_parser ["-v"; "--help"; "--"; "-x"; "--"])
           ["-v"; "--help"] ["-x"; "--"]); reflexivity.
Defined.

Lemma legacy_getopt_iff_passed_witness :
  Legacy.waspassed (legacy_parser ["-v"; "-o"; "out"; "y"]) "-o"
  = Legacy.Err Legacy.NotParsedError
  /\ exists b,
      Legacy.waspassed (Legacy.mk ["-v"; "-h"; "-o:"] ["help"; "name:"]
                          ["-v"; "-o"; "out"; "y"] [("-v", ""); ("-o", "out")] ["y"] true)
        "-o" = Legacy.Ok b
      /\ (b = true <->
          exists v, Legacy.getopt (Legacy.mk ["-v"; "-h"; "-o:"] ["help"; "name:"]
                                     ["-v"; "-o"; "out"; "y"] [("-v", ""); ("-o", "out")]
                                     ["y"] true) "-o" = Legacy.Ok v)
      /\ (b = false <->
          Legacy.getopt (Legacy.mk ["-v"; "-h"; "-o:"] ["help"; "name:"]
                           ["-v"; "-o"; "out"; "y"] [("-v", ""); ("-o", "out")] ["y"] true)
            "-o" = Legacy.Err (Legacy.OptionNotFoundError "-o")).
Proof.
  apply (legacy_getopt_iff_passed (legacy_parser ["-v"; "-o"; "out"; "y"])); reflexivity.
Defined.

Lemma legacy_getopt_value_witness :
  Legacy.getopt (Legacy.mk ["-v"; "-h"; "-o:"] ["help"; "name:"]
                   ["-v"; "-o"; "out"; "-o"; "other"; "y"]
                   [("-v", ""); ("-o", "out"); ("-o", "other")] ["y"] true) "-o"
  = Legacy.Ok "out".
Proof.
  apply (legacy_getopt_value (legacy_parser ["-v"; "-o"; "out"; "-o"; "other"; "y"]) _
           ["-v"] ["-o"; "other"; "y"] "-o" "out"); reflexivity.
Defined.

Lemma legacy_long_ignores_prefix_witness :
  Legacy.isopt (legacy_parser ["xxhelp"]) "xxhelp" "l" = true
  /\ Legacy.parse (legacy_parser ["xxhelp"])
     = Legacy.Ok (Legacy.mk (Legacy.descript_short (legacy_parser ["xxhelp"]))
                    (Legacy.descript_long (legacy_parser ["xxhelp"]))
                    (Legacy.argv (legacy_parser ["xxhelp"])) [("xxhelp", "")] [] true).
Proof.
  apply (legacy_long_ignores_prefix (legacy_parser ["xxhelp"]) "x" "x" "help");
    reflexivity.
Defined.

Lemma legacy_empty_argument_witness :
  Legacy.parse (Legacy.__init__ "vho:" ["help"; "name:"] (["-v"] ++ "" :: ["a"]))
  = Legacy.Err Legacy.IndexError.
Proof.
  apply (legacy_empty_argument "vho:" ["help"; "name:"] ["-v"] ["a"]); reflexivity.
Defined.

Lemma legacy_check_guards_parse_witness :
  Legacy.parse (legacy_parser ["-v"; "-o"; "out"])
  <> Legacy.Err (Legacy.SwitchValueError "-o").
Proof.
  apply (legacy_check_guards_parse (legacy_parser ["-v"; "-o"; "out"]) "-o"). reflexivity.
Defined.

Lemma legacy_splitshorts_cluster_witness :
  Legacy._splitshorts (legacy_parser ["-vh"; "--"; "-vh"])
  = Legacy.Ok (Legacy.mk (Legacy.descript_short (legacy_parser ["-vh"; "--"; "-vh"]))
                 (Legacy.descript_long (legacy_parser ["-vh"; "--"; "-vh"]))
                 (Legacy.letters "-vh" ++ "--" :: ["-vh"])
                 (Legacy.opts (legacy_parser ["-vh"; "--"; "-vh"]))
                 (Legacy.args (legacy_parser ["-vh"; "--"; "-vh"]))
                 (Legacy.parsed (legacy_parser ["-vh"; "--"; "-vh"]))).
Proof.
  apply (legacy_splitshorts_cluster (legacy_parser ["-vh"; "--"; "-vh"]) "vh" ["-vh"]);
    reflexivity.
Defined.

(** The single-level parser at work: clusters are split on request, a
    lone dash is dropped by the split, and no argument at all makes the
    split fail; [check] refuses an option left without its value. *)
Example legacy_on_sample :
  Legacy.shorts_of (list_ascii_of_string "vho:") = ["-v"; "-h"; "-o:"]
  /\ Legacy.listaccepted (legacy_parser []) = ["-v"; "-h"; "-o:"; "--help"; "--name:"]
  /\ (Legacy.bind (Legacy._splitshorts (legacy_parser ["-vh"; "-"; "file"]))
        (fun p => Legacy.Ok (Legacy.argv p))) = Legacy.Ok ["-v"; "-h"; "file"]
  /\ Legacy._splitshorts (legacy_parser []) = Legacy.Err Legacy.UnboundLocalError
  /\ Legacy.check (legacy_parser ["-v"; "--name"]) false
     = Legacy.Err (Legacy.SwitchValueError "--name")
  /\ (Legacy.bind (Legacy.parse (legacy_parser ["-v"; "--name"; "n"; "a"; "-h"]))
        (fun p => Legacy.Ok (Legacy.opts p, Legacy.getargs p)))
     = Legacy.Ok ([("-v", ""); ("--name", "n")], ["a"; "-h"]).
Proof. repeat split. Qed.

Lemma plain_arguments_are_operands_witness :
  parse Sample.dashed Sample.handlers Sample.handlers Sample.tool ["file"; "x"; "--bogus"]
  = Ret (mkUI [] ["file"; "x"; "--bogus"] "" Sample.tool None).
Proof.
  apply (plain_arguments_are_operands Sample.dashed Sample.handlers Sample.handlers
           Sample.tool ["file"; "x"; "--bogus"]); [split|]; reflexivity.
Defined.
